(** * goapi: service lifecycle and request pipeline of [main.go]

    A shallow embedding of [main], [initDatabase] and [parseFlags], of the
    goroutine that [main] spawns to coordinate shutdown, and of the
    middleware chain that [main] installs on the router.

    Sequential code is written in a small state monad over the process
    state, in which [os.Exit] halts the rest of the computation.  The part
    of [main] that runs concurrently with the shutdown goroutine is a
    transition system: one transition per source statement, driven by a
    schedule that also carries what the environment does (signals,
    requests, the results of blocking calls). *)

From Stdlib Require Import List String ZArith Lia Bool Ascii.
Import ListNotations.
Local Open Scope string_scope.
Local Open Scope list_scope.

(** ** Values of the Go runtime and of the imported packages *)

(** [syscall.Signal]: the signals [main] names, and two more whose
    disposition [main] leaves at the default. *)
Inductive Signal := SIGHUP | SIGINT | SIGQUIT | SIGKILL | SIGPIPE | SIGTERM.

Definition Signum (s : Signal) : Z :=
  match s with
  | SIGHUP => 1 | SIGINT => 2 | SIGQUIT => 3
  | SIGKILL => 9 | SIGPIPE => 13 | SIGTERM => 15
  end%Z.

Definition Signal_eqb (a b : Signal) : bool := Z.eqb (Signum a) (Signum b).

Definition sig_mem (s : Signal) (l : list Signal) : bool :=
  existsb (Signal_eqb s) l.

Definition sig_remove (l : list Signal) (from : list Signal) : list Signal :=
  filter (fun s => negb (sig_mem s l)) from.

(** Go's [error] interface: [None] is [nil].  [http.ErrServerClosed] is the
    one sentinel [main] compares against. *)
Inductive error :=
| ErrServerClosed
| ErrMigration (id : string)
| ErrOther (msg : string).

Definition error_eqb (a b : error) : bool :=
  match a, b with
  | ErrServerClosed, ErrServerClosed => true
  | ErrMigration x, ErrMigration y => String.eqb x y
  | ErrOther x, ErrOther y => String.eqb x y
  | _, _ => false
  end.

(** [net/http] status codes used by [main]. *)
Definition StatusOK : Z := 200.
Definition StatusInternalServerError : Z := 500.
Definition StatusServiceUnavailable : Z := 503.

Definition MethodGet := "GET".
Definition MethodPut := "PUT".
Definition MethodPost := "POST".
Definition MethodDelete := "DELETE".
Definition MethodOptions := "OPTIONS".

(** [flags.Error] of go-flags: only its [Type] is inspected. *)
Inductive ErrorType := ErrHelp | ErrUnknownFlag | ErrRequired | ErrMarshal.

Record flags_Error := { Type_ : ErrorType; Message : string }.

Definition is_ErrHelp (t : ErrorType) : bool :=
  match t with ErrHelp => true | _ => false end.

(** ** [cliFlags] *)

Record HTTP_flags := {
  Addr : string;
  AllowedOrigins : list string;
  AllowedHeaders : list string;
  ExposedHeaders : list string
}.

Record Postgres_flags := {
  URL : string;
  MaxConnLifetimeSec : Z;
  MaxIdleConns : Z;
  MaxOpenConns : Z
}.

Record Log_flags := { Level : string; Format : string }.

Record cliFlags := {
  DocsPath : string;
  HTTP : HTTP_flags;
  Postgres : Postgres_flags;
  Log : Log_flags;
  Version : bool
}.

(** [postgres.Config] *)
Record postgres_Config := {
  MaxConnLifetime : Z;
  pc_MaxOpenConns : Z;
  pc_MaxIdleConns : Z
}.

(** [cors.Options], the fields [main] sets. *)
Record cors_Options := {
  co_AllowedOrigins : list string;
  co_AllowedHeaders : list string;
  co_ExposedHeaders : list string;
  co_AllowedMethods : list string;
  co_AllowCredentials : bool
}.

(** The interceptors handed to [r.Use], and the router they wrap. *)
Inductive stage :=
| RequestID | RealIP | RequestLogger | Recoverer | CorsHandler | Router.

(** An incoming request, as far as the pipeline looks at it. *)
Record request := {
  Method : string;
  Path : string;
  Origin : string;
  XRequestId : string;
  XForwardedFor : string;
  RemoteAddr : string;
  AccessControlRequestMethod : string;
  AccessControlRequestHeaders : list string
}.

(** ** Observable events *)

Inductive LogLevel := InfoLevel | ErrorLevel | FatalLevel.

Inductive event :=
| EParse
| EPrintln (fd : Z) (s : string)
| ELogNew (format level : string)
| ELog (l : LogLevel) (msg : string) (err : option error)
| EPostgresNew (dsn : string) (pcfg : postgres_Config)
| EConnect
| EMigrate (ids : list string)
| EDbClose
| ENewManager
| ECorsNew (o : cors_Options)
| ENewRouter
| EUse (ms : list stage)
| EMount (pattern : string)
| ERoute (pattern : string)
| EFileServer (pattern dir : string)
| EIgnore (sigs : list Signal)
| ENotify (sigs : list Signal)
| EGo
| ESetReadinessStatus (code : Z)
| EShutdown
| EListenAndServe (addr : string)
| EServe (r : request)
| EKilled (s : Signal)
| EExit (code : Z).

(** ** Process state *)

(** [http.Server]: not yet listening, listening, or shutting down (the
    [inShutdown] flag that [Shutdown] sets). *)
Inductive server_state := SrvNew | SrvListening | SrvInShutdown.

(** Where the main goroutine stands once the shutdown goroutine exists
    (lines 85 to 90 of [main.go]). *)
Inductive main_pc :=
| MBoot
| MLogStarting
| MLogListening
| MListenCall
| MListening
| MListenReturned (err : option error)
| MReturn
| MDone.

(** Where the goroutine of lines 73 to 83 stands. *)
Inductive go_pc :=
| GRecv
| GCaptured (s : Signal)
| GSetReadiness
| GLogGraceful
| GShutdownCall
| GDraining
| GShutdownReturned (err : option error)
| GDone.

Record proc := mkProc {
  trace : list event;
  readiness : Z;
  ignored : list Signal;
  notified : list Signal;
  sigquit : list Signal;
  srv : server_state;
  srv_Addr : string;
  mpc : main_pc;
  gpc : option go_pc;
  deferred : list event;
  exited : option Z
}.

Definition emit (e : event) (p : proc) : proc :=
  mkProc (trace p ++ [e]) (readiness p) (ignored p) (notified p) (sigquit p)
         (srv p) (srv_Addr p) (mpc p) (gpc p) (deferred p) (exited p).

Definition set_readiness (c : Z) (p : proc) : proc :=
  mkProc (trace p) c (ignored p) (notified p) (sigquit p)
         (srv p) (srv_Addr p) (mpc p) (gpc p) (deferred p) (exited p).

Definition set_signals (ig nt : list Signal) (p : proc) : proc :=
  mkProc (trace p) (readiness p) ig nt (sigquit p)
         (srv p) (srv_Addr p) (mpc p) (gpc p) (deferred p) (exited p).

Definition set_sigquit (q : list Signal) (p : proc) : proc :=
  mkProc (trace p) (readiness p) (ignored p) (notified p) q
         (srv p) (srv_Addr p) (mpc p) (gpc p) (deferred p) (exited p).

Definition set_srv (s : server_state) (p : proc) : proc :=
  mkProc (trace p) (readiness p) (ignored p) (notified p) (sigquit p)
         s (srv_Addr p) (mpc p) (gpc p) (deferred p) (exited p).

Definition set_srv_Addr (a : string) (p : proc) : proc :=
  mkProc (trace p) (readiness p) (ignored p) (notified p) (sigquit p)
         (srv p) a (mpc p) (gpc p) (deferred p) (exited p).

Definition set_mpc (m : main_pc) (p : proc) : proc :=
  mkProc (trace p) (readiness p) (ignored p) (notified p) (sigquit p)
         (srv p) (srv_Addr p) m (gpc p) (deferred p) (exited p).

Definition set_gpc (g : option go_pc) (p : proc) : proc :=
  mkProc (trace p) (readiness p) (ignored p) (notified p) (sigquit p)
         (srv p) (srv_Addr p) (mpc p) g (deferred p) (exited p).

Definition set_deferred (d : list event) (p : proc) : proc :=
  mkProc (trace p) (readiness p) (ignored p) (notified p) (sigquit p)
         (srv p) (srv_Addr p) (mpc p) (gpc p) d (exited p).

Definition set_exited (c : Z) (p : proc) : proc :=
  mkProc (trace p) (readiness p) (ignored p) (notified p) (sigquit p)
         (srv p) (srv_Addr p) (mpc p) (gpc p) (deferred p) (Some c).

(** Modelled from the spec: the readiness cell of package [health], which
    is not among the sources.  "initialized to OK at startup"; the write
    operation stores the status it is given, the read operation returns
    the cell. *)
Definition health_initial : Z := StatusOK.

Definition health_SetReadinessStatus (code : Z) (p : proc) : proc :=
  set_readiness code (emit (ESetReadinessStatus code) p).

Definition health_ReadinessStatus (p : proc) : Z := readiness p.

(** The process as the operating system starts it. *)
Definition proc0 : proc :=
  mkProc [] health_initial [] [] [] SrvNew "" MBoot None [] None.

(** ** The monad of sequential code *)

Inductive res (A : Type) := Val (a : A) | Halted.
Arguments Val {A} a.
Arguments Halted {A}.

Definition M (A : Type) := proc -> res A * proc.

Definition ret {A} (a : A) : M A := fun p => (Val a, p).

Definition bind {A B} (m : M A) (f : A -> M B) : M B :=
  fun p => match m p with
           | (Val a, p') => f a p'
           | (Halted, p') => (Halted, p')
           end.

Declare Scope go_scope.
Delimit Scope go_scope with go.
Notation "x <- m ;; k" := (bind m (fun x => k))
  (at level 61, m at next level, right associativity) : go_scope.
Notation "m ;; k" := (bind m (fun _ => k))
  (at level 61, right associativity) : go_scope.
Local Open Scope go_scope.

Definition call (e : event) : M unit := fun p => (Val tt, emit e p).

Definition modify (f : proc -> proc) : M unit := fun p => (Val tt, f p).

(** [os.Exit(code)]: the process ends at once; deferred calls do not run. *)
Definition os_Exit (code : Z) : M unit :=
  fun p => (Halted, set_exited code (emit (EExit code) p)).

Definition when (b : bool) (m : M unit) : M unit := if b then m else ret tt.

(** ** What the collaborators answer *)

(** The results of the calls whose code is outside [main.go]. *)
Record world := {
  version : string;
  flags_Parse : cliFlags * option flags_Error;
  article_Migrations : list string;
  postgres_New : option error;
  db_Connect : option error;
  db_Migrate : list string -> option error
}.

Record Database := { db_dsn : string; db_pcfg : postgres_Config }.

(** Modelled from the spec: [Fatal] of package [log], which is not among
    the sources.  "fatal errors produce a non-zero process exit and a
    human-readable diagnostic". *)
Definition logger_Fatal (err : error) : M unit :=
  call (ELog FatalLevel "" (Some err)) ;; os_Exit 1.

Definition logger_Info (msg : string) : M unit :=
  call (ELog InfoLevel msg None).

Definition logger_Error (msg : string) (err : error) : M unit :=
  call (ELog ErrorLevel msg (Some err)).

(** ** [parseFlags] *)

Definition parseFlags (w : world) : M cliFlags :=
  call EParse ;;
  let (cfg, err) := flags_Parse w in
  match err with
  | Some flagsErr =>
      if is_ErrHelp (Type_ flagsErr) then os_Exit 0
      else (call (EPrintln 2 (Message flagsErr)) ;; os_Exit 1)
  | None => ret tt
  end ;;
  when (Version cfg) (call (EPrintln 1 (version w)) ;; os_Exit 0) ;;
  ret cfg.

(** ** [initDatabase] *)

Definition initDatabase (w : world) (dsn : string) (pcfg : postgres_Config)
  : M (option Database * option error) :=
  let migrations := [] ++ article_Migrations w in
  let ms := migrations in
  call (EPostgresNew dsn pcfg) ;;
  match postgres_New w with
  | Some err => ret (None, Some err)
  | None =>
      let db := {| db_dsn := dsn; db_pcfg := pcfg |} in
      call EConnect ;;
      match db_Connect w with
      | Some err => ret (None, Some err)
      | None =>
          call (EMigrate ms) ;;
          match db_Migrate w ms with
          | Some err => ret (None, Some err)
          | None => ret (Some db, None)
          end
      end
  end.

(** ** [main], up to the spawning of the shutdown goroutine *)

(** The options of line 45 to 51. *)
Definition corsOptions (cfg : cliFlags) : cors_Options :=
  {| co_AllowedOrigins := AllowedOrigins (HTTP cfg);
     co_AllowedHeaders := AllowedHeaders (HTTP cfg);
     co_ExposedHeaders := ExposedHeaders (HTTP cfg);
     co_AllowedMethods := [MethodGet; MethodPut; MethodDelete];
     co_AllowCredentials := true |}.

(** The arguments of [r.Use], line 54 to 60. *)
Definition middlewares : list stage :=
  [RequestID; RealIP; RequestLogger; Recoverer; CorsHandler].

(** [signal.Ignore]: the signals are ignored and no longer relayed. *)
Definition signal_Ignore (sigs : list Signal) : M unit :=
  call (EIgnore sigs) ;;
  modify (fun p => set_signals (sigs ++ ignored p) (sig_remove sigs (notified p)) p).

(** [signal.Notify(sigquit, sigs...)]: the signals are relayed to the
    channel, and no longer ignored. *)
Definition signal_Notify (sigs : list Signal) : M unit :=
  call (ENotify sigs) ;;
  modify (fun p => set_signals (sig_remove sigs (ignored p)) (sigs ++ notified p) p).

Definition main_bootstrap (w : world) : M unit :=
  cfg <- parseFlags w ;;
  call (ELogNew (Format (Log cfg)) (Level (Log cfg))) ;;
  logger_Info "started with config: %+v" ;;
  let pcfg := {| MaxConnLifetime := MaxConnLifetimeSec (Postgres cfg);
                 pc_MaxOpenConns := MaxOpenConns (Postgres cfg);
                 pc_MaxIdleConns := MaxIdleConns (Postgres cfg) |} in
  r <- initDatabase w (URL (Postgres cfg)) pcfg ;;
  match snd r with
  | Some err => logger_Fatal err
  | None => ret tt
  end ;;
  modify (fun p => set_deferred (EDbClose :: deferred p) p) ;;
  call ENewManager ;;
  call (ECorsNew (corsOptions cfg)) ;;
  call ENewRouter ;;
  call (EUse middlewares) ;;
  call (EMount "/readiness") ;;
  call (ERoute "/1.0") ;;
  call (EMount "/articles") ;;
  call (EFileServer "/docs" (DocsPath cfg)) ;;
  modify (set_srv_Addr (Addr (HTTP cfg))) ;;
  signal_Ignore [SIGHUP; SIGPIPE] ;;
  signal_Notify [SIGINT; SIGTERM] ;;
  call EGo ;;
  modify (fun p => set_mpc MLogStarting (set_gpc (Some GRecv) p)).

Definition boot (w : world) : proc := snd (main_bootstrap w proc0).

(** ** The concurrent part: main goroutine, shutdown goroutine, environment *)

(** What a schedule can do next: run one statement of either goroutine,
    or let the environment act. *)
Inductive action :=
| StepMain
| StepGo
| Deliver (s : Signal)
| Request (r : request)
| ListenReturn (err : option error)
| DrainReturn (err : option error).

(** [err != nil && err != http.ErrServerClosed], line 87. *)
Definition is_server_error (err : option error) : bool :=
  match err with
  | None => false
  | Some e => negb (error_eqb e ErrServerClosed)
  end.

(** Lines 85 to 90.  [ListenAndServe] answers [ErrServerClosed] as soon as
    [Shutdown] has been called, also when that happened before the call;
    otherwise it blocks until the environment makes it return.  When
    [main] returns, the deferred calls run and the process exits with
    status 0. *)
Definition main_step (p : proc) : proc :=
  match mpc p with
  | MBoot => p
  | MLogStarting =>
      set_mpc MLogListening (emit (ELog InfoLevel "starting http service..." None) p)
  | MLogListening =>
      set_mpc MListenCall (emit (ELog InfoLevel "listening on %s" None) p)
  | MListenCall =>
      let p := emit (EListenAndServe (srv_Addr p)) p in
      match srv p with
      | SrvInShutdown => set_mpc (MListenReturned (Some ErrServerClosed)) p
      | _ => set_mpc MListening (set_srv SrvListening p)
      end
  | MListening =>
      match srv p with
      | SrvInShutdown => set_mpc (MListenReturned (Some ErrServerClosed)) p
      | _ => p
      end
  | MListenReturned err =>
      set_mpc MReturn
        (if is_server_error err
         then emit (ELog ErrorLevel "server error" err) p
         else p)
  | MReturn =>
      let p := fold_left (fun q e => emit e q) (deferred p) p in
      set_mpc MDone (set_exited 0 (emit (EExit 0) p))
  | MDone => p
  end.

(** Lines 74 to 82. *)
Definition go_step (p : proc) : proc :=
  match gpc p with
  | None => p
  | Some GRecv =>
      match sigquit p with
      | s :: q => set_gpc (Some (GCaptured s)) (set_sigquit q p)
      | [] => p
      end
  | Some (GCaptured s) =>
      set_gpc (Some GSetReadiness)
        (emit (ELog InfoLevel "captured %v, exiting..." None) p)
  | Some GSetReadiness =>
      set_gpc (Some GLogGraceful)
        (health_SetReadinessStatus StatusServiceUnavailable p)
  | Some GLogGraceful =>
      set_gpc (Some GShutdownCall)
        (emit (ELog InfoLevel "gracefully shutdown server" None) p)
  | Some GShutdownCall =>
      set_gpc (Some GDraining) (set_srv SrvInShutdown (emit EShutdown p))
  | Some GDraining => p
  | Some (GShutdownReturned err) =>
      set_gpc (Some GDone)
        (match err with
         | Some e => emit (ELog ErrorLevel "could not shutdown server" (Some e)) p
         | None => p
         end)
  | Some GDone => p
  end.

(** Delivery of a signal by the operating system: relayed to the channel
    (capacity 1, never blocking) when [Notify] asked for it, dropped when
    ignored, and fatal otherwise. *)
Definition deliver (s : Signal) (p : proc) : proc :=
  if sig_mem s (notified p) then
    if (List.length (sigquit p) <? 1)%nat then set_sigquit (sigquit p ++ [s]) p else p
  else if sig_mem s (ignored p) then p
  else set_exited (128 + Signum s) (emit (EKilled s) p).

Definition step (a : action) (p : proc) : proc :=
  match exited p with
  | Some _ => p
  | None =>
      match a with
      | StepMain => main_step p
      | StepGo => go_step p
      | Deliver s => deliver s p
      | Request r =>
          match mpc p, srv p with
          | MListening, SrvListening => emit (EServe r) p
          | _, _ => p
          end
      | ListenReturn err =>
          match mpc p with
          | MListening => set_mpc (MListenReturned err) p
          | _ => p
          end
      | DrainReturn err =>
          match gpc p with
          | Some GDraining => set_gpc (Some (GShutdownReturned err)) p
          | _ => p
          end
      end
  end.

Definition run (sched : list action) (p : proc) : proc :=
  fold_left (fun q a => step a q) sched p.

(** [main] in a given world under a given schedule. *)
Definition main (w : world) (sched : list action) : proc :=
  run sched (boot w).

(** ** The shutdown coordinator as the spec names its states *)

Inductive coordinator := NotArmed | Armed | Triggered | Draining | Done.

Definition coordinator_of (p : proc) : coordinator :=
  match gpc p with
  | None => NotArmed
  | Some GRecv => Armed
  | Some (GCaptured _) | Some GSetReadiness | Some GLogGraceful
  | Some GShutdownCall => Triggered
  | Some GDraining => Draining
  | Some (GShutdownReturned _) | Some GDone => Done
  end.

(** ** Sample worlds *)

Definition cfg0 : cliFlags :=
  {| DocsPath := "docs";
     HTTP := {| Addr := "localhost:5000"; AllowedOrigins := ["*"];
                AllowedHeaders := []; ExposedHeaders := [] |};
     Postgres := {| URL := "postgres://"; MaxConnLifetimeSec := 60;
                    MaxIdleConns := 1; MaxOpenConns := 1 |};
     Log := {| Level := "info"; Format := "text" |};
     Version := false |}.

Definition world_ok : world :=
  {| version := "1.0";
     flags_Parse := (cfg0, None);
     article_Migrations := ["1_articles"];
     postgres_New := None;
     db_Connect := None;
     db_Migrate := fun _ => None |}.

Definition world_migrate_fails : world :=
  {| version := "1.0";
     flags_Parse := (cfg0, None);
     article_Migrations := ["1_articles"];
     postgres_New := None;
     db_Connect := None;
     db_Migrate := fun _ => Some (ErrMigration "1_articles") |}.

(** ** What a trace shows *)

(** The bootstrap phases of the spec, each marked in the trace by the call
    that begins it. *)
Inductive phase := Configured | Connected | Migrated | Assembled | Listened.

Definition all_phases : list phase :=
  [Configured; Connected; Migrated; Assembled; Listened].

Definition phase_of (e : event) : list phase :=
  match e with
  | EParse => [Configured]
  | EPostgresNew _ _ => [Connected]
  | EMigrate _ => [Migrated]
  | EUse _ => [Assembled]
  | EListenAndServe _ => [Listened]
  | _ => []
  end.

Definition phases (t : list event) : list phase := flat_map phase_of t.

Definition served (t : list event) : list request :=
  flat_map (fun e => match e with EServe r => [r] | _ => [] end) t.

Definition readiness_writes (t : list event) : list Z :=
  flat_map (fun e => match e with ESetReadinessStatus c => [c] | _ => [] end) t.

Definition shutdown_calls (t : list event) : nat :=
  List.length (filter (fun e => match e with EShutdown => true | _ => false end) t).

Definition spawns (t : list event) : nat :=
  List.length (filter (fun e => match e with EGo => true | _ => false end) t).

Definition is_server_error_log (e : event) : bool :=
  match e with
  | ELog ErrorLevel msg _ => String.eqb msg "server error"
  | _ => false
  end.

Definition server_error_logs (t : list event) : list event :=
  filter is_server_error_log t.

Definition is_shutdown_error_log (e : event) : bool :=
  match e with
  | ELog ErrorLevel msg _ => String.eqb msg "could not shutdown server"
  | _ => false
  end.

(** The phase in which the bootstrap of a world stops, if it does: the
    configuration is not resolved (parse error, help, or the version
    flag), the connection is not established, or a migration fails. *)
Definition config_resolved (w : world) : bool :=
  match snd (flags_Parse w) with
  | Some _ => false
  | None => negb (Version (fst (flags_Parse w)))
  end.

Definition connection_established (w : world) : bool :=
  match postgres_New w, db_Connect w with
  | None, None => true
  | _, _ => false
  end.

Definition migrations_applied (w : world) : bool :=
  match db_Migrate w ([] ++ article_Migrations w) with
  | None => true
  | Some _ => false
  end.

(** ** The request pipeline *)

(** The request as a stage hands it to the next one: the request
    identifier stored in its context and the (rewritten) remote address. *)
Record rctx := {
  rq : request;
  ctx_RequestID : option string;
  ctx_RemoteAddr : string
}.

Record log_entry := {
  le_RequestID : option string;
  le_RemoteAddr : string;
  le_Status : Z
}.

(** What serving one request leaves behind: the stages entered, in order,
    the entries of the request log, and the origin the CORS stage granted
    access to, if any. *)
Record rstate := {
  visited : list stage;
  access_log : list log_entry;
  allow_origin : option string
}.

Definition rstate0 : rstate :=
  {| visited := []; access_log := []; allow_origin := None |}.

Definition enter (s : stage) (st : rstate) : rstate :=
  {| visited := visited st ++ [s];
     access_log := access_log st;
     allow_origin := allow_origin st |}.

Definition log_request (e : log_entry) (st : rstate) : rstate :=
  {| visited := visited st;
     access_log := access_log st ++ [e];
     allow_origin := allow_origin st |}.

Definition grant (o : option string) (st : rstate) : rstate :=
  {| visited := visited st;
     access_log := access_log st;
     allow_origin := o |}.

(** A handler produces a response or panics. *)
Inductive result := Response (status : Z) | Panicked (v : string).

Definition Handler := rctx -> rstate -> rstate * result.

(** The parts of the pipeline that [main] only names: the identifier the
    request-id stage generates, the origin and header policies of the CORS
    package, and the routes mounted on the router. *)
Record collaborators := {
  fresh_id : string;
  isOriginAllowed : list string -> string -> bool;
  areHeadersAllowed : list string -> list string -> bool;
  routes : rctx -> result
}.

Definition upper_ascii (c : ascii) : ascii :=
  let n := nat_of_ascii c in
  if ((97 <=? n) && (n <=? 122))%nat then ascii_of_nat (n - 32) else c.

Fixpoint ToUpper (s : string) : string :=
  match s with
  | EmptyString => EmptyString
  | String c r => String (upper_ascii c) (ToUpper r)
  end.

(** The [Cors] value that [cors.New] builds from the options. *)
Record Cors := {
  allowedOrigins : list string;
  allowedHeaders : list string;
  exposedHeaders : list string;
  allowedMethods : list string;
  allowCredentials : bool;
  optionPassthrough : bool
}.

Definition cors_New (o : cors_Options) : Cors :=
  {| allowedOrigins := co_AllowedOrigins o;
     allowedHeaders := co_AllowedHeaders o;
     exposedHeaders := co_ExposedHeaders o;
     allowedMethods :=
       match co_AllowedMethods o with
       | [] => [MethodGet; MethodPost]
       | ms => map ToUpper ms
       end;
     allowCredentials := co_AllowCredentials o;
     optionPassthrough := false |}.

Definition isMethodAllowed (c : Cors) (method : string) : bool :=
  match allowedMethods c with
  | [] => false
  | _ =>
      let method := ToUpper method in
      if String.eqb method MethodOptions then true
      else existsb (String.eqb method) (allowedMethods c)
  end.

(** Whether the CORS stage grants a preflight request. *)
Definition handlePreflight (k : collaborators) (c : Cors) (r : request) : bool :=
  String.eqb (Method r) MethodOptions
  && negb (String.eqb (Origin r) "")
  && isOriginAllowed k (allowedOrigins c) (Origin r)
  && isMethodAllowed c (AccessControlRequestMethod r)
  && areHeadersAllowed k (allowedHeaders c) (AccessControlRequestHeaders r).

(** Whether the CORS stage grants an actual request. *)
Definition handleActualRequest (k : collaborators) (c : Cors) (r : request) : bool :=
  negb (String.eqb (Method r) MethodOptions)
  && negb (String.eqb (Origin r) "")
  && isOriginAllowed k (allowedOrigins c) (Origin r)
  && isMethodAllowed c (Method r).

Definition granted (b : bool) (r : request) : option string :=
  if b then Some (Origin r) else None.

(** The five interceptors.  Each is entered, does its work and calls the
    next handler; the CORS stage answers a preflight itself. *)
Definition middleware_RequestID (k : collaborators) (next : Handler) : Handler :=
  fun c st =>
    let requestID :=
      if String.eqb (XRequestId (rq c)) "" then fresh_id k else XRequestId (rq c) in
    next {| rq := rq c; ctx_RequestID := Some requestID;
            ctx_RemoteAddr := ctx_RemoteAddr c |}
         (enter RequestID st).

Definition middleware_RealIP (next : Handler) : Handler :=
  fun c st =>
    let rip := XForwardedFor (rq c) in
    next {| rq := rq c; ctx_RequestID := ctx_RequestID c;
            ctx_RemoteAddr := if String.eqb rip "" then ctx_RemoteAddr c else rip |}
         (enter RealIP st).

(** Modelled from the spec: [RequestLogger] of package [handler], which is
    not among the sources.  "Structured request logging": the stage calls
    the next handler and records "the eventual response status" of the
    request, under the identifier and client address it finds in the
    request. *)
Definition handler_RequestLogger (next : Handler) : Handler :=
  fun c st =>
    match next c (enter RequestLogger st) with
    | (st', Response status) =>
        (log_request {| le_RequestID := ctx_RequestID c;
                        le_RemoteAddr := ctx_RemoteAddr c;
                        le_Status := status |} st',
         Response status)
    | (st', Panicked v) => (st', Panicked v)
    end.

Definition middleware_Recoverer (next : Handler) : Handler :=
  fun c st =>
    match next c (enter Recoverer st) with
    | (st', Response status) => (st', Response status)
    | (st', Panicked _) => (st', Response StatusInternalServerError)
    end.

Definition cors_Handler (k : collaborators) (cm : Cors) (next : Handler) : Handler :=
  fun c st =>
    let st := enter CorsHandler st in
    if String.eqb (Method (rq c)) MethodOptions then
      let st := grant (granted (handlePreflight k cm (rq c)) (rq c)) st in
      if optionPassthrough cm then next c st else (st, Response StatusOK)
    else
      next c (grant (granted (handleActualRequest k cm (rq c)) (rq c)) st).

(** The router proper: dispatch to the mounted routes. *)
Definition router (k : collaborators) : Handler :=
  fun c st => (enter Router st, routes k c).

Definition middleware_of (k : collaborators) (cm : Cors) (s : stage)
  : Handler -> Handler :=
  match s with
  | RequestID => middleware_RequestID k
  | RealIP => middleware_RealIP
  | RequestLogger => handler_RequestLogger
  | Recoverer => middleware_Recoverer
  | CorsHandler => cors_Handler k cm
  | Router => fun next => next
  end.

(** chi's [chain]: the first middleware given to [Use] is the outermost. *)
Definition chain (ms : list (Handler -> Handler)) (endpoint : Handler) : Handler :=
  fold_right (fun m h => m h) endpoint ms.

(** The handler of [srv], as lines 45 to 68 assemble it. *)
Definition srv_Handler (k : collaborators) (cfg : cliFlags) : Handler :=
  chain (map (middleware_of k (cors_New (corsOptions cfg))) middlewares) (router k).

Definition ServeHTTP (k : collaborators) (cfg : cliFlags) (r : request)
  : rstate * result :=
  srv_Handler k cfg
    {| rq := r; ctx_RequestID := None; ctx_RemoteAddr := RemoteAddr r |}
    rstate0.

(** The request as it reaches the router. *)
Definition ctx_at_router (k : collaborators) (r : request) : rctx :=
  {| rq := r;
     ctx_RequestID :=
       Some (if String.eqb (XRequestId r) "" then fresh_id k else XRequestId r);
     ctx_RemoteAddr :=
       if String.eqb (XForwardedFor r) "" then RemoteAddr r else XForwardedFor r |}.

Definition set_Method (m : string) (r : request) : request :=
  {| Method := m; Path := Path r; Origin := Origin r;
     XRequestId := XRequestId r; XForwardedFor := XForwardedFor r;
     RemoteAddr := RemoteAddr r;
     AccessControlRequestMethod := AccessControlRequestMethod r;
     AccessControlRequestHeaders := AccessControlRequestHeaders r |}.

Definition set_RequestMethod (m : string) (r : request) : request :=
  {| Method := Method r; Path := Path r; Origin := Origin r;
     XRequestId := XRequestId r; XForwardedFor := XForwardedFor r;
     RemoteAddr := RemoteAddr r;
     AccessControlRequestMethod := m;
     AccessControlRequestHeaders := AccessControlRequestHeaders r |}.

(** ** The migration runner *)

(** Modelled from the spec: [Migrate] of package [postgres] and the
    migration package behind it, which are not among the sources.
    "read the ledger; for each migration in declared order, if its id is
    absent from the ledger, execute its apply procedure, then append a
    ledger entry"; "Stops at the first failing migration and surfaces
    MigrationError carrying the failing id".  A migration is one unit of
    work: when its procedure fails the store is left as it was. *)
Record Migration (schema : Type) := {
  Id : string;
  applyFn : schema -> option schema
}.
Arguments Id {schema} _.
Arguments applyFn {schema} _ _.

Record LedgerEntry := { le_id : string; appliedAt : Z }.

Record store (schema : Type) := {
  ledger : list LedgerEntry;
  data : schema
}.
Arguments ledger {schema} _.
Arguments data {schema} _.

Inductive migrate_result := Applied (count : nat) | MigrationError (id : string).

Record migrate_run (schema : Type) := {
  final : store schema;
  attempted : list string;
  outcome : migrate_result
}.
Arguments final {schema} _.
Arguments attempted {schema} _.
Arguments outcome {schema} _.

Definition in_ledger (id : string) (l : list LedgerEntry) : bool :=
  existsb (fun e => String.eqb (le_id e) id) l.

Fixpoint migrate_loop {schema} (now : Z) (ms : list (Migration schema))
  (s : store schema) (tried : list string) (n : nat) : migrate_run schema :=
  match ms with
  | [] => {| final := s; attempted := tried; outcome := Applied n |}
  | m :: rest =>
      if in_ledger (Id m) (ledger s) then migrate_loop now rest s tried n
      else
        match applyFn m (data s) with
        | Some d =>
            migrate_loop now rest
              {| ledger := ledger s ++ [{| le_id := Id m; appliedAt := now |}];
                 data := d |}
              (tried ++ [Id m]) (S n)
        | None =>
            {| final := s; attempted := tried ++ [Id m];
               outcome := MigrationError (Id m) |}
        end
  end.

Definition migrate {schema} (now : Z) (s : store schema)
  (orderedMigrations : list (Migration schema)) : migrate_run schema :=
  migrate_loop now orderedMigrations s [] 0.

(** ** States and traces of a run *)

(** Every phase of the bootstrap succeeds. *)
Definition bootstrapped (w : world) : bool :=
  config_resolved w && connection_established w && migrations_applied w.

Definition boot_trace (w : world) : list event :=
  let cfg := fst (flags_Parse w) in
  [EParse; ELogNew (Format (Log cfg)) (Level (Log cfg));
   ELog InfoLevel "started with config: %+v" None;
   EPostgresNew (URL (Postgres cfg))
     {| MaxConnLifetime := MaxConnLifetimeSec (Postgres cfg);
        pc_MaxOpenConns := MaxOpenConns (Postgres cfg);
        pc_MaxIdleConns := MaxIdleConns (Postgres cfg) |};
   EConnect; EMigrate ([] ++ article_Migrations w); ENewManager;
   ECorsNew (corsOptions cfg); ENewRouter; EUse middlewares;
   EMount "/readiness"; ERoute "/1.0"; EMount "/articles";
   EFileServer "/docs" (DocsPath cfg);
   EIgnore [SIGHUP; SIGPIPE]; ENotify [SIGINT; SIGTERM]; EGo].

(** The readiness write comes before every drain request. *)
Definition write_before_drain (t : list event) : Prop :=
  forall t1 t2, t = t1 ++ EShutdown :: t2 ->
                In (ESetReadinessStatus StatusServiceUnavailable) t1.

Definition is_termination (s : Signal) : bool :=
  match s with SIGINT | SIGTERM => true | _ => false end.

Definition is_benign (s : Signal) : bool :=
  match s with SIGHUP | SIGPIPE => true | _ => false end.

(** The goroutine has written the readiness status. *)
Definition go_wrote (g : option go_pc) : bool :=
  match g with
  | Some GLogGraceful | Some GShutdownCall | Some GDraining
  | Some (GShutdownReturned _) | Some GDone => true
  | _ => false
  end.

(** The goroutine has called [Shutdown]. *)
Definition go_drains (g : option go_pc) : bool :=
  match g with
  | Some GDraining | Some (GShutdownReturned _) | Some GDone => true
  | _ => false
  end.

(** The main goroutine has called [ListenAndServe]. *)
Definition main_listened (m : main_pc) : bool :=
  match m with
  | MListening | MListenReturned _ | MReturn | MDone => true
  | _ => false
  end.

(** The main goroutine is past the test of line 87. *)
Definition main_checked (m : main_pc) : bool :=
  match m with MReturn | MDone => true | _ => false end.

Definition in_shutdown (s : server_state) : bool :=
  match s with SrvInShutdown => true | _ => false end.

Definition genuine_server_error_log (e : event) : Prop :=
  exists err, e = ELog ErrorLevel "server error" err /\ is_server_error err = true.

Record Inv (p : proc) : Prop := {
  inv_ignored : ignored p = [SIGHUP; SIGPIPE];
  inv_notified : notified p = [SIGINT; SIGTERM];
  inv_chan : forallb is_termination (sigquit p) = true;
  inv_armed : gpc p <> None;
  inv_captured : forall s, gpc p = Some (GCaptured s) -> is_termination s = true;
  inv_readiness :
    readiness p = if go_wrote (gpc p) then StatusServiceUnavailable else StatusOK;
  inv_writes :
    readiness_writes (trace p) =
    if go_wrote (gpc p) then [StatusServiceUnavailable] else [];
  inv_drains :
    shutdown_calls (trace p) = if go_drains (gpc p) then 1%nat else 0%nat;
  inv_srv : in_shutdown (srv p) = go_drains (gpc p);
  inv_order : write_before_drain (trace p);
  inv_phases :
    phases (trace p) =
    firstn 4 all_phases ++ (if main_listened (mpc p) then [Listened] else []);
  inv_served : served (trace p) <> [] -> main_listened (mpc p) = true;
  inv_quiet : main_checked (mpc p) = false -> server_error_logs (trace p) = [];
  inv_genuine : Forall genuine_server_error_log (server_error_logs (trace p));
  inv_exit0 : mpc p = MDone -> exited p = Some 0%Z;
  inv_started : mpc p <> MBoot;
  inv_spawned : spawns (trace p) = 1%nat;
  inv_deferred : deferred p = [EDbClose]
}.

(** The coordinator has left the armed state. *)
Definition triggered (p : proc) : bool :=
  match coordinator_of p with
  | NotArmed | Armed => false
  | _ => true
  end.

Definition benign_delivery (a : action) : bool :=
  match a with
  | Deliver s => is_benign s
  | _ => false
  end.

(** States a run of [main] can be in: the bootstrap failed and the
    process is gone, or the invariant holds. *)
Definition reachable (p : proc) : Prop :=
  (exists c, exited p = Some c) \/ Inv p.

(** ** Forgetting the drain result *)

(** The same schedule with every drain result replaced by success. *)
Definition erase_drain (a : action) : action :=
  match a with
  | DrainReturn _ => DrainReturn None
  | _ => a
  end.

Definition keep (e : event) : bool := negb (is_shutdown_error_log e).

(** A state with the drain result and its log line forgotten. *)
Definition erase (p : proc) : proc :=
  mkProc (filter keep (trace p)) (readiness p) (ignored p) (notified p)
         (sigquit p) (srv p) (srv_Addr p) (mpc p)
         (match gpc p with
          | Some (GShutdownReturned _) => Some (GShutdownReturned None)
          | g => g
          end)
         (filter keep (deferred p)) (exited p).

(** ** Sample requests, collaborators and stores *)

Definition k_panicking : collaborators :=
  {| fresh_id := "host/000001";
     isOriginAllowed := fun _ _ => true;
     areHeadersAllowed := fun _ _ => true;
     routes := fun _ => Panicked "runtime error" |}.

Definition get_articles : request :=
  {| Method := "GET"; Path := "/1.0/articles"; Origin := "";
     XRequestId := ""; XForwardedFor := "203.0.113.7";
     RemoteAddr := "10.0.0.1:4711";
     AccessControlRequestMethod := ""; AccessControlRequestHeaders := [] |}.

(** Sample stores and migrations: the schema is the list of tables. *)
Definition create_table (t : string) : Migration (list string) :=
  {| Id := t;
     applyFn := fun tables =>
       if existsb (String.eqb t) tables then None else Some (tables ++ [t]) |}.

Definition store_with_comments : store (list string) :=
  {| ledger := []; data := ["comments"] |}.

Definition never_applies : Migration unit :=
  {| Id := "1_articles"; applyFn := fun _ => None |}.

Definition empty_store : store unit := {| ledger := []; data := tt |}.

(** ** Further observers and the second invariant *)

Definition db_closes (t : list event) : nat :=
  List.length (filter (fun e => match e with EDbClose => true | _ => false end) t).

Definition is_fatal_log (e : event) : bool :=
  match e with ELog FatalLevel _ _ => true | _ => false end.

Definition fatal_logs (t : list event) : list event := filter is_fatal_log t.

Definition listen_addrs (t : list event) : list string :=
  flat_map (fun e => match e with EListenAndServe a => [a] | _ => [] end) t.

(** The first non-nil error of a sequence of results. *)
Fixpoint first_error (l : list (option error)) : option error :=
  match l with
  | [] => None
  | Some e :: _ => Some e
  | None :: rest => first_error rest
  end.

(** The main goroutine has returned. *)
Definition main_done (m : main_pc) : bool :=
  match m with MDone => true | _ => false end.

(** The trace [t] begins with [b]. *)
Definition extends (b t : list event) : Prop := exists t', t = b ++ t'.

(** What holds of a run after a successful bootstrap, beside [Inv]. *)
Record Inv2 (w : world) (p : proc) : Prop := {
  inv2_prefix : extends (boot_trace w) (trace p);
  inv2_addr : srv_Addr p = Addr (HTTP (fst (flags_Parse w)));
  inv2_listen :
    listen_addrs (trace p) =
    if main_listened (mpc p) then [srv_Addr p] else [];
  inv2_close :
    db_closes (trace p) = if main_done (mpc p) then 1%nat else 0%nat;
  inv2_exit :
    forall c, exited p = Some c ->
              (c = 0%Z /\ mpc p = MDone) \/ (129 <= c)%Z;
  inv2_fatal : fatal_logs (trace p) = [];
  inv2_chan : (List.length (sigquit p) <= 1)%nat;
  inv2_last :
    mpc p = MDone ->
    exists t, trace p = t ++ [EDbClose; EExit 0] /\ In Listened (phases t)
}.

(** A state without what waits in the signal channel. *)
Definition forget_chan (p : proc) : proc := set_sigquit [] p.


Definition world_connect_fails : world :=
  {| version := "1.0";
     flags_Parse := (cfg0, None);
     article_Migrations := ["1_articles"];
     postgres_New := None;
     db_Connect := Some (ErrOther "connection refused");
     db_Migrate := fun _ => Some (ErrMigration "1_articles") |}.

(** * Properties *)

(** ** Running schedules *)

Lemma step_exited a p c : exited p = Some c -> step a p = p.
Proof. intros H. unfold step. now rewrite H. Qed.

Lemma run_exited sched p c : exited p = Some c -> run sched p = p.
Proof.
  induction sched as [|a sched IH]; intros H; [reflexivity|].
  simpl. rewrite (step_exited a p c H). now apply IH.
Qed.

Lemma run_app s1 s2 p : run (s1 ++ s2) p = run s2 (run s1 p).
Proof. unfold run. now rewrite fold_left_app. Qed.

Lemma run_snoc s a p : run (s ++ [a]) p = step a (run s p).
Proof. now rewrite run_app. Qed.

Lemma main_app w s1 s2 : main w (s1 ++ s2) = run s2 (main w s1).
Proof. unfold main. apply run_app. Qed.

(** ** Runs on sample worlds *)

(** A graceful shutdown: SIGTERM while serving, a clean drain. *)
Example graceful_run :
  let p := main world_ok
             [StepMain; StepMain; StepMain; Request get_articles;
              Deliver SIGHUP; Deliver SIGTERM;
              StepGo; StepGo; StepGo; StepGo; StepGo;
              DrainReturn None; StepGo;
              StepMain; StepMain; StepMain] in
  exited p = Some 0%Z /\ readiness p = StatusServiceUnavailable /\
  served (trace p) = [get_articles] /\ phases (trace p) = all_phases /\
  server_error_logs (trace p) = [] /\ coordinator_of p = Done.
Proof. vm_compute. repeat split; reflexivity. Qed.

(** The listener cannot bind: the error is logged and [main] returns. *)
Example bind_failure_run :
  let p := main world_ok
             [StepMain; StepMain; StepMain;
              ListenReturn (Some (ErrOther "address already in use"));
              StepMain; StepMain] in
  exited p = Some 0%Z /\ readiness p = StatusOK /\
  server_error_logs (trace p) =
    [ELog ErrorLevel "server error" (Some (ErrOther "address already in use"))].
Proof. vm_compute. repeat split; reflexivity. Qed.

(** [ListenAndServe] returns as soon as [Shutdown] is called, so [main]
    can return while the goroutine is still waiting for the drain. *)
Example main_returns_while_draining :
  let p := main world_ok
             [StepMain; StepMain; StepMain; Deliver SIGINT;
              StepGo; StepGo; StepGo; StepGo; StepGo;
              StepMain; StepMain; StepMain;
              DrainReturn (Some (ErrOther "listener")); StepGo] in
  exited p = Some 0%Z /\ coordinator_of p = Draining /\
  filter is_shutdown_error_log (trace p) = [].
Proof. vm_compute. repeat split; reflexivity. Qed.

(** SIGQUIT is neither relayed nor ignored. *)
Example sigquit_kills :
  exited (main world_ok [StepMain; Deliver SIGQUIT; StepMain]) = Some 131%Z.
Proof. reflexivity. Qed.

Example failed_migration_run :
  trace (main world_migrate_fails [StepMain; Deliver SIGTERM]) =
  [EParse; ELogNew "text" "info";
   ELog InfoLevel "started with config: %+v" None;
   EPostgresNew "postgres://"
     {| MaxConnLifetime := 60; pc_MaxOpenConns := 1; pc_MaxIdleConns := 1 |};
   EConnect; EMigrate ["1_articles"];
   ELog FatalLevel "" (Some (ErrMigration "1_articles")); EExit 1].
Proof. reflexivity. Qed.

Example ToUpper_post : ToUpper "post" = "POST".
Proof. reflexivity. Qed.

(** Three migrations on a fresh store: all recorded, in declared order. *)
Example migrate_three :
  let r := migrate 7 {| ledger := []; data := [] |}
             [create_table "articles"; create_table "tags";
              create_table "comments"] in
  outcome r = Applied 3 /\
  map le_id (ledger (final r)) = ["articles"; "tags"; "comments"] /\
  data (final r) = ["articles"; "tags"; "comments"].
Proof. vm_compute. repeat split; reflexivity. Qed.

(** ** The bootstrap, case by case *)

Lemma boot_success w :
  bootstrapped w = true ->
  boot w = mkProc (boot_trace w) StatusOK [SIGHUP; SIGPIPE] [SIGINT; SIGTERM] []
             SrvNew (Addr (HTTP (fst (flags_Parse w)))) MLogStarting
             (Some GRecv) [EDbClose] None.
Proof.
  unfold bootstrapped, config_resolved, connection_established,
    migrations_applied, boot, boot_trace, main_bootstrap, parseFlags, initDatabase.
  destruct (flags_Parse w) as [cfg [fe|]] eqn:Ef; simpl; [discriminate|].
  destruct (Version cfg) eqn:Ev; simpl; [discriminate|].
  destruct (postgres_New w) eqn:En; simpl; [discriminate|].
  destruct (db_Connect w) eqn:Ec; simpl; [discriminate|].
  destruct (db_Migrate w (article_Migrations w)) eqn:Em; simpl; [discriminate|].
  intros _. unfold bind, call, when, ret, modify. simpl.
  rewrite ?Ev, ?En, ?Ec, ?Em; reflexivity.
Qed.

Lemma boot_config_unresolved w :
  config_resolved w = false ->
  phases (trace (boot w)) = [Configured] /\
  (exited (boot w) = Some 0%Z \/ exited (boot w) = Some 1%Z) /\
  served (trace (boot w)) = [] /\ spawns (trace (boot w)) = 0%nat /\
  gpc (boot w) = None.
Proof.
  unfold config_resolved, boot, main_bootstrap, parseFlags.
  destruct (flags_Parse w) as [cfg [fe|]] eqn:Ef; simpl.
  - intros _. unfold bind, call, os_Exit. simpl.
    destruct (is_ErrHelp (Type_ fe)); simpl; auto 10.
  - destruct (Version cfg) eqn:Ev; simpl; [|discriminate].
    intros _. unfold bind, call, os_Exit, when, ret. simpl. rewrite ?Ev.
    simpl. auto 10.
Qed.

Lemma boot_connection_failed w :
  config_resolved w = true -> connection_established w = false ->
  phases (trace (boot w)) = [Configured; Connected] /\
  exited (boot w) = Some 1%Z /\
  served (trace (boot w)) = [] /\ spawns (trace (boot w)) = 0%nat /\
  gpc (boot w) = None.
Proof.
  unfold config_resolved, connection_established, boot, main_bootstrap,
    parseFlags, initDatabase.
  destruct (flags_Parse w) as [cfg [fe|]] eqn:Ef; simpl; [discriminate|].
  destruct (Version cfg) eqn:Ev; simpl; [discriminate|]. intros _.
  unfold bind, call, os_Exit, when, ret, logger_Info, logger_Fatal. simpl.
  rewrite ?Ev. simpl.
  destruct (postgres_New w) eqn:En; simpl.
  - intros _. unfold bind, call, os_Exit. simpl. auto 10.
  - destruct (db_Connect w) eqn:Ec; simpl; [|discriminate].
    intros _. unfold bind, call, os_Exit. simpl. auto 10.
Qed.

Lemma boot_migration_failed w :
  config_resolved w = true -> connection_established w = true ->
  migrations_applied w = false ->
  phases (trace (boot w)) = [Configured; Connected; Migrated] /\
  exited (boot w) = Some 1%Z /\
  served (trace (boot w)) = [] /\ spawns (trace (boot w)) = 0%nat /\
  gpc (boot w) = None.
Proof.
  unfold config_resolved, connection_established, migrations_applied, boot,
    main_bootstrap, parseFlags, initDatabase.
  destruct (flags_Parse w) as [cfg [fe|]] eqn:Ef; simpl; [discriminate|].
  destruct (Version cfg) eqn:Ev; simpl; [discriminate|]. intros _.
  destruct (postgres_New w) eqn:En; simpl; [discriminate|].
  destruct (db_Connect w) eqn:Ec; simpl; [discriminate|]. intros _.
  destruct (db_Migrate w (article_Migrations w)) eqn:Em; simpl; [|discriminate].
  intros _.
  unfold bind, call, os_Exit, when, ret, logger_Info, logger_Fatal. simpl.
  rewrite ?Ev, ?En, ?Ec, ?Em. simpl. auto 10.
Qed.

(** ** Observers of a trace that grows at its end *)

Lemma phases_snoc t e : phases (t ++ [e]) = phases t ++ phase_of e.
Proof. unfold phases. rewrite flat_map_app. simpl. now rewrite app_nil_r. Qed.

Lemma served_snoc t e :
  served (t ++ [e]) = served t ++ match e with EServe r => [r] | _ => [] end.
Proof. unfold served. rewrite flat_map_app. simpl. now rewrite app_nil_r. Qed.

Lemma readiness_writes_snoc t e :
  readiness_writes (t ++ [e]) =
  readiness_writes t ++ match e with ESetReadinessStatus c => [c] | _ => [] end.
Proof.
  unfold readiness_writes. rewrite flat_map_app. simpl. now rewrite app_nil_r.
Qed.

Lemma shutdown_calls_snoc t e :
  shutdown_calls (t ++ [e]) =
  (shutdown_calls t + match e with EShutdown => 1 | _ => 0 end)%nat.
Proof.
  unfold shutdown_calls. rewrite filter_app, length_app.
  destruct e; reflexivity.
Qed.

Lemma spawns_snoc t e :
  spawns (t ++ [e]) = (spawns t + match e with EGo => 1 | _ => 0 end)%nat.
Proof.
  unfold spawns. rewrite filter_app, length_app. destruct e; reflexivity.
Qed.

Lemma server_error_logs_snoc t e :
  server_error_logs (t ++ [e]) =
  server_error_logs t ++ (if is_server_error_log e then [e] else []).
Proof. unfold server_error_logs. now rewrite filter_app. Qed.

Lemma readiness_writes_In t c :
  In c (readiness_writes t) -> In (ESetReadinessStatus c) t.
Proof.
  unfold readiness_writes. rewrite in_flat_map. intros [e [He Hc]].
  destruct e; simpl in Hc; try contradiction.
  destruct Hc as [->|[]]. exact He.
Qed.

Lemma write_before_drain_snoc t e :
  write_before_drain t ->
  (e = EShutdown -> In (ESetReadinessStatus StatusServiceUnavailable) t) ->
  write_before_drain (t ++ [e]).
Proof.
  intros Ht He t1 t2 E.
  destruct (exists_last (l := EShutdown :: t2)) as [t2' [x Ex]]; [discriminate|].
  rewrite Ex, app_assoc in E. apply app_inj_tail in E. destruct E as [E1 E2].
  subst x. destruct t2' as [|y t2'].
  - simpl in Ex. injection Ex as Ex _. subst e.
    rewrite app_nil_r in E1. subst t1. now apply He.
  - simpl in Ex. injection Ex as Ey Et. subst y.
    apply (Ht t1 t2'). exact E1.
Qed.

(** ** The invariant of the concurrent part *)

Lemma Inv_boot w : bootstrapped w = true -> Inv (boot w).
Proof.
  intros H. rewrite (boot_success w H).
  constructor; simpl; try reflexivity; try discriminate; auto.
  - intros t1 t2 E. exfalso.
    assert (Hn : shutdown_calls (boot_trace w) = 0%nat) by reflexivity.
    rewrite E in Hn. unfold shutdown_calls in Hn.
    rewrite filter_app, length_app in Hn. simpl in Hn. lia.
Qed.

Ltac snoc :=
  rewrite ?phases_snoc, ?served_snoc, ?readiness_writes_snoc,
    ?shutdown_calls_snoc, ?spawns_snoc, ?server_error_logs_snoc.

Ltac use_pcs :=
  repeat match goal with
         | H : mpc ?p = _ |- context [mpc ?p] => rewrite H
         | H : gpc ?p = _ |- context [gpc ?p] => rewrite H
         | H : srv ?p = _ |- context [srv ?p] => rewrite H
         end.

Ltac inv_case :=
  constructor; simpl; snoc; use_pcs; simpl; rewrite ?app_nil_r, ?Nat.add_0_r;
  try assumption; try reflexivity; try discriminate; try congruence;
  repeat (apply write_before_drain_snoc; [ | discriminate]);
  try assumption;
  try solve [ match goal with H : ?l = _ |- context [?l] => rewrite H end;
              simpl; auto ];
  try solve [ intuition (auto; discriminate) ].

Lemma Inv_main_step p : exited p = None -> Inv p -> Inv (main_step p).
Proof.
  intros Ex [Hig Hnt Hch Har Hcap Hrd Hwr Hdr Hsrv Hord Hph Hsv Hq Hgen Hex Hst Hsp Hdef].
  unfold main_step. destruct (mpc p) eqn:Em; simpl in *.
  - congruence.
  - inv_case.
  - inv_case.
  - destruct (srv p) eqn:Es; inv_case.
  - destruct (srv p) eqn:Es; inv_case.
  - destruct (is_server_error err) eqn:Ee; inv_case.
    apply Forall_app. split; [assumption|].
    constructor; [|constructor]. now exists err.
  - rewrite Hdef. inv_case.
  - inv_case.
Qed.

Lemma Inv_go_step p : exited p = None -> Inv p -> Inv (go_step p).
Proof.
  intros Ex [Hig Hnt Hch Har Hcap Hrd Hwr Hdr Hsrv Hord Hph Hsv Hq Hgen Hex Hst Hsp Hdef].
  unfold go_step. destruct (gpc p) as [[]|] eqn:Eg; simpl in *.
  - destruct (sigquit p) as [|s q] eqn:Eq; simpl in *.
    + inv_case.
    + apply andb_prop in Hch. destruct Hch as [Hs Hq'].
      inv_case.
  - inv_case.
  - inv_case.
  - inv_case.
  - inv_case.
    apply write_before_drain_snoc; [assumption|]. intros _.
    apply readiness_writes_In. rewrite Hwr. now left.
  - inv_case.
  - destruct err; inv_case.
  - inv_case.
  - congruence.
Qed.


Lemma Inv_deliver s p : exited p = None -> Inv p -> Inv (deliver s p).
Proof.
  intros Ex [Hig Hnt Hch Har Hcap Hrd Hwr Hdr Hsrv Hord Hph Hsv Hq Hgen Hex Hst Hsp Hdef].
  unfold deliver. rewrite Hig, Hnt.
  destruct s; simpl;
    try (destruct (List.length (sigquit p) <? 1)%nat eqn:El);
    inv_case;
    try (rewrite forallb_app, Hch; reflexivity).
  all: intros E; apply Hex in E; congruence.
Qed.

Lemma Inv_step a p : Inv p -> Inv (step a p).
Proof.
  intros I. unfold step. destruct (exited p) eqn:Ex; [exact I|].
  destruct a.
  - now apply Inv_main_step.
  - now apply Inv_go_step.
  - now apply Inv_deliver.
  - destruct I as [Hig Hnt Hch Har Hcap Hrd Hwr Hdr Hsrv Hord Hph Hsv Hq Hgen Hex Hst Hsp Hdef].
    destruct (mpc p) eqn:Em; try (inv_case; fail).
    destruct (srv p) eqn:Es; inv_case.
  - destruct I as [Hig Hnt Hch Har Hcap Hrd Hwr Hdr Hsrv Hord Hph Hsv Hq Hgen Hex Hst Hsp Hdef].
    destruct (mpc p) eqn:Em; inv_case.
  - destruct I as [Hig Hnt Hch Har Hcap Hrd Hwr Hdr Hsrv Hord Hph Hsv Hq Hgen Hex Hst Hsp Hdef].
    destruct (gpc p) as [[]|] eqn:Eg; inv_case.
Qed.

Lemma Inv_run sched p : Inv p -> Inv (run sched p).
Proof.
  revert p. induction sched as [|a sched IH]; intros p I; [exact I|].
  simpl. apply IH. now apply Inv_step.
Qed.

Lemma Inv_main w sched : bootstrapped w = true -> Inv (main w sched).
Proof. intros H. apply Inv_run. now apply Inv_boot. Qed.

(** A bootstrap that fails leaves nothing for the schedule to run. *)
Lemma main_not_bootstrapped w sched :
  bootstrapped w = false -> main w sched = boot w.
Proof.
  intros H. unfold main, bootstrapped in *.
  destruct (config_resolved w) eqn:Hc.
  - destruct (connection_established w) eqn:Hn.
    + destruct (migrations_applied w) eqn:Hm; [discriminate|].
      destruct (boot_migration_failed w Hc Hn Hm) as (_ & E & _).
      now apply run_exited with (c := 1%Z).
    + destruct (boot_connection_failed w Hc Hn) as (_ & E & _).
      now apply run_exited with (c := 1%Z).
  - destruct (boot_config_unresolved w Hc) as (_ & [E|E] & _);
      eapply run_exited; eassumption.
Qed.

(** ** Service bootstrap *)

Lemma bootstrapped_false_cases w :
  bootstrapped w = false ->
  config_resolved w = false \/
  (config_resolved w = true /\ connection_established w = false) \/
  (config_resolved w = true /\ connection_established w = true /\
   migrations_applied w = false).
Proof.
  unfold bootstrapped.
  destruct (config_resolved w), (connection_established w),
    (migrations_applied w); simpl; intros; try discriminate; auto 6.
Qed.

Lemma failed_boot_facts w :
  bootstrapped w = false ->
  (exists n, phases (trace (boot w)) = firstn n all_phases /\ (n <= 3)%nat) /\
  served (trace (boot w)) = [] /\ gpc (boot w) = None /\
  exists c, exited (boot w) = Some c.
Proof.
  intros H. destruct (bootstrapped_false_cases w H) as [Hc|[[Hc Hn]|(Hc & Hn & Hm)]].
  - destruct (boot_config_unresolved w Hc) as (P & E & S & _ & G).
    repeat split; auto.
    + exists 1%nat. split; [exact P | lia].
    + destruct E as [E|E]; eauto.
  - destruct (boot_connection_failed w Hc Hn) as (P & E & S & _ & G).
    repeat split; eauto. exists 2%nat. split; [exact P | lia].
  - destruct (boot_migration_failed w Hc Hn Hm) as (P & E & S & _ & G).
    repeat split; eauto. exists 3%nat. split; [exact P | lia].
Qed.

(** C1.  The bootstrap runs its phases in the order configuration,
    connection, migrations, pipeline, listener: in every world and under
    every schedule the phases begun so far are an initial segment of that
    list, and when every phase succeeds the listener is reached.  The
    shutdown goroutine exists whenever the listener has been started.  A
    configuration that is not resolved, a failure of the connection or of
    a migration ends the process before the schedule runs at all, with
    status 1 in the last two cases: the later phases are not begun and no
    request is served. *)
Theorem bootstrap_order_fail_fast (w : world) (sched : list action) :
  let p := main w sched in
  (exists n, phases (trace p) = firstn n all_phases) /\
  (bootstrapped w = true ->
     phases (trace (main w [StepMain; StepMain; StepMain])) = all_phases) /\
  (In Listened (phases (trace p)) ->
     coordinator_of p <> NotArmed /\ spawns (trace p) = 1%nat) /\
  (served (trace p) <> [] -> phases (trace p) = all_phases) /\
  (config_resolved w = false ->
     p = boot w /\ phases (trace p) = [Configured] /\
     (exited p = Some 0%Z \/ exited p = Some 1%Z) /\ served (trace p) = []) /\
  (config_resolved w = true -> connection_established w = false ->
     p = boot w /\ phases (trace p) = [Configured; Connected] /\
     exited p = Some 1%Z /\ served (trace p) = []) /\
  (config_resolved w = true -> connection_established w = true ->
   migrations_applied w = false ->
     p = boot w /\ phases (trace p) = [Configured; Connected; Migrated] /\
     exited p = Some 1%Z /\ served (trace p) = []).
Proof.
  intros p. subst p.
  destruct (bootstrapped w) eqn:Hb.
  - pose proof (Inv_main w sched Hb) as I.
    assert (Hcases : config_resolved w = true /\ connection_established w = true
                     /\ migrations_applied w = true).
    { unfold bootstrapped in Hb.
      apply andb_prop in Hb. destruct Hb as [Hb Hm].
      apply andb_prop in Hb. now destruct Hb. }
    destruct Hcases as (Hc & Hn & Hm).
    split; [|split; [|split; [|split; [|split; [|split]]]]].
    + rewrite (inv_phases _ I).
      destruct (main_listened (mpc (main w sched)));
        [now exists 5%nat | now exists 4%nat].
    + intros _. unfold main. now rewrite (boot_success w Hb).
    + intros _. split; [|apply (inv_spawned _ I)].
      unfold coordinator_of. pose proof (inv_armed _ I) as Ha.
      destruct (gpc (main w sched)) as [[]|]; congruence.
    + intros Hs. rewrite (inv_phases _ I), (inv_served _ I Hs). reflexivity.
    + congruence.
    + congruence.
    + congruence.
  - rewrite (main_not_bootstrapped w sched Hb).
    destruct (failed_boot_facts w Hb) as ((n & Pn & Ln) & S & G & c & E).
    split; [|split; [|split; [|split; [|split; [|split]]]]].
    + now exists n.
    + discriminate.
    + rewrite Pn. intros Hin. exfalso.
      destruct n as [|[|[|[|n]]]]; simpl in Hin; try lia;
        intuition discriminate.
    + now rewrite S.
    + intros Hc. destruct (boot_config_unresolved w Hc) as (P & E' & _).
      auto.
    + intros Hc Hn. destruct (boot_connection_failed w Hc Hn) as (P & E' & _).
      auto.
    + intros Hc Hn Hm.
      destruct (boot_migration_failed w Hc Hn Hm) as (P & E' & _). auto.
Qed.

Lemma bootstrap_order_fail_fast_witness :
  main world_migrate_fails [StepMain; Deliver SIGTERM; StepGo] =
    boot world_migrate_fails /\
  phases (trace (main world_migrate_fails [StepMain; Deliver SIGTERM; StepGo])) =
    [Configured; Connected; Migrated] /\
  exited (main world_migrate_fails [StepMain; Deliver SIGTERM; StepGo]) = Some 1%Z /\
  served (trace (main world_migrate_fails [StepMain; Deliver SIGTERM; StepGo])) = [].
Proof.
  apply (bootstrap_order_fail_fast world_migrate_fails
           [StepMain; Deliver SIGTERM; StepGo]); reflexivity.
Defined.

(** ** Readiness *)

(** Runs one step of a schedule on a state whose fields are known. *)
Ltac step1 :=
  match goal with
  | |- context [step ?a (mkProc ?t ?r ?i ?n ?q ?sv ?ad ?m ?g ?d ?e)] =>
      let y := eval simpl in (step a (mkProc t r i n q sv ad m g d e)) in
      change (step a (mkProc t r i n q sv ad m g d e)) with y
  end.

(** Nothing in the bootstrap touches the readiness cell, the server or
    the error log. *)
Lemma boot_quiet w :
  readiness (boot w) = StatusOK /\
  readiness_writes (trace (boot w)) = [] /\
  shutdown_calls (trace (boot w)) = 0%nat /\
  srv (boot w) = SrvNew /\
  server_error_logs (trace (boot w)) = [] /\
  sigquit (boot w) = [] /\
  mpc (boot w) <> MDone.
Proof.
  unfold boot, main_bootstrap, parseFlags, initDatabase.
  destruct (flags_Parse w) as [cfg [fe|]] eqn:Ef; simpl.
  - unfold bind, call, os_Exit. simpl.
    destruct (is_ErrHelp (Type_ fe)); simpl; repeat split; discriminate.
  - unfold bind, call, os_Exit, when, ret, logger_Info, logger_Fatal, modify.
    simpl. destruct (Version cfg) eqn:Ev; simpl;
      [repeat split; discriminate|].
    destruct (postgres_New w) eqn:En; simpl; [repeat split; discriminate|].
    destruct (db_Connect w) eqn:Ec; simpl; [repeat split; discriminate|].
    destruct (db_Migrate w (article_Migrations w)) eqn:Em; simpl;
      repeat split; discriminate.
Qed.

Lemma no_drain_write_before_drain t :
  shutdown_calls t = 0%nat -> write_before_drain t.
Proof.
  intros H t1 t2 E. exfalso. rewrite E in H. unfold shutdown_calls in H.
  rewrite filter_app, length_app in H. simpl in H. lia.
Qed.

Lemma readiness_emits l p :
  readiness (fold_left (fun q e => emit e q) l p) = readiness p.
Proof.
  revert p. induction l as [|e l IH]; intros p; [reflexivity|].
  simpl. now rewrite IH.
Qed.

(** A step either leaves the readiness cell alone or makes it
    UNAVAILABLE. *)
Lemma readiness_step a p :
  readiness (step a p) = readiness p \/
  readiness (step a p) = StatusServiceUnavailable.
Proof.
  unfold step. destruct (exited p); [now left|].
  destruct a; simpl.
  - unfold main_step. destruct (mpc p); simpl; auto.
    + destruct (srv p); simpl; auto.
    + destruct (srv p); simpl; auto.
    + destruct (is_server_error err); simpl; auto.
    + left. apply readiness_emits.
  - unfold go_step. destruct (gpc p) as [[]|]; simpl; auto.
    + destruct (sigquit p); simpl; auto.
    + destruct err; simpl; auto.
  - unfold deliver. destruct (sig_mem s (notified p)).
    + destruct (List.length (sigquit p) <? 1)%nat; simpl; auto.
    + destruct (sig_mem s (ignored p)); simpl; auto.
  - destruct (mpc p); auto. destruct (srv p); auto.
  - destruct (mpc p); auto.
  - destruct (gpc p) as [[]|]; auto.
Qed.

Lemma readiness_unavailable_run sched p :
  readiness p = StatusServiceUnavailable ->
  readiness (run sched p) = StatusServiceUnavailable.
Proof.
  revert p. induction sched as [|a sched IH]; intros p H; [exact H|].
  simpl. apply IH. destruct (readiness_step a p) as [E|E]; congruence.
Qed.

(** C2.  The readiness status is OK when the process starts and after the
    bootstrap.  In every run it is written at most once, and only to
    UNAVAILABLE; the write comes before every drain request in the trace,
    and the status is UNAVAILABLE whenever the server is shutting down.
    Once a read returns UNAVAILABLE, every read after any further schedule
    returns UNAVAILABLE.  From the armed coordinator, a termination signal
    leads to the write first, while no drain is requested yet, and to the
    drain request after it. *)
Theorem readiness_unavailable_before_drain_and_forever
  (w : world) (sched sched2 : list action) (s : Signal) :
  let p := main w sched in
  health_ReadinessStatus proc0 = StatusOK /\
  health_ReadinessStatus (boot w) = StatusOK /\
  ((List.length (readiness_writes (trace p)) <= 1)%nat /\
   forall c, In c (readiness_writes (trace p)) -> c = StatusServiceUnavailable) /\
  write_before_drain (trace p) /\
  (in_shutdown (srv p) = true ->
     health_ReadinessStatus p = StatusServiceUnavailable) /\
  (health_ReadinessStatus p = StatusServiceUnavailable ->
     health_ReadinessStatus (main w (sched ++ sched2)) = StatusServiceUnavailable) /\
  (coordinator_of p = Armed -> exited p = None -> sigquit p = [] ->
   is_termination s = true ->
     let q := run [Deliver s; StepGo; StepGo; StepGo] p in
     health_ReadinessStatus q = StatusServiceUnavailable /\
     shutdown_calls (trace q) = 0%nat /\
     shutdown_calls (trace (run [StepGo; StepGo] q)) = 1%nat).
Proof.
  intros p. subst p.
  destruct (boot_quiet w) as (Br & Bw & Bd & Bs & _).
  split; [reflexivity|]. split; [exact Br|].
  assert (Hmono : health_ReadinessStatus (main w sched) = StatusServiceUnavailable ->
                  health_ReadinessStatus (main w (sched ++ sched2)) =
                  StatusServiceUnavailable).
  { intros H. rewrite main_app. now apply readiness_unavailable_run. }
  destruct (bootstrapped w) eqn:Hb.
  - pose proof (Inv_main w sched Hb) as I.
    split; [|split; [|split; [|split]]]; auto.
    + rewrite (inv_writes _ I).
      destruct (go_wrote (gpc (main w sched))); simpl; split; try lia;
        intros c Hc; intuition.
    + apply (inv_order _ I).
    + unfold health_ReadinessStatus.
      rewrite (inv_srv _ I), (inv_readiness _ I).
      destruct (gpc (main w sched)) as [[]|]; simpl; congruence.
    + intros Ha Ex Hq Hs. unfold coordinator_of in Ha.
      pose proof (inv_notified _ I) as Hn.
      pose proof (inv_drains _ I) as Hd.
      remember (main w sched) as p eqn:Ep. clear Ep Hmono I Br Bw Bd Bs.
      destruct (gpc p) as [[]|] eqn:Eg; try discriminate.
      simpl in Hd.
      destruct p as [tr rd ig nt sq sv ad mp gp df ex]; simpl in *; subst.
      unfold health_ReadinessStatus.
      unfold run; simpl fold_left.
      destruct s; try discriminate; repeat step1;
        simpl; snoc; simpl; rewrite Hd; repeat split; reflexivity.
  - rewrite (main_not_bootstrapped w sched Hb) in *.
    destruct (failed_boot_facts w Hb) as (_ & _ & G & _).
    split; [|split; [|split; [|split]]]; auto.
    + rewrite Bw. simpl. split; [lia | intros c []].
    + now apply no_drain_write_before_drain.
    + rewrite Bs. discriminate.
    + unfold coordinator_of. rewrite G. discriminate.
Qed.

Lemma readiness_unavailable_before_drain_and_forever_witness :
  health_ReadinessStatus
    (run [Deliver SIGTERM; StepGo; StepGo; StepGo] (main world_ok [])) =
    StatusServiceUnavailable /\
  shutdown_calls
    (trace (run [Deliver SIGTERM; StepGo; StepGo; StepGo] (main world_ok []))) =
    0%nat /\
  shutdown_calls
    (trace (run [StepGo; StepGo]
              (run [Deliver SIGTERM; StepGo; StepGo; StepGo] (main world_ok [])))) =
    1%nat.
Proof.
  pose proof (readiness_unavailable_before_drain_and_forever
                world_ok [] [] SIGTERM) as H.
  cbv zeta in H. destruct H as (_ & _ & _ & _ & _ & _ & H).
  apply H; vm_compute; reflexivity.
Defined.

(** ** Signals *)

Lemma emits_eq l p :
  fold_left (fun q e => emit e q) l p =
  mkProc (trace p ++ l) (readiness p) (ignored p) (notified p) (sigquit p)
         (srv p) (srv_Addr p) (mpc p) (gpc p) (deferred p) (exited p).
Proof.
  revert p. induction l as [|e l IH]; intros p; simpl.
  - rewrite app_nil_r. now destruct p.
  - rewrite IH. simpl. now rewrite <- app_assoc.
Qed.

Lemma reachable_boot w : reachable (boot w).
Proof.
  destruct (bootstrapped w) eqn:Hb.
  - right. now apply Inv_boot.
  - left. now destruct (failed_boot_facts w Hb) as (_ & _ & _ & E).
Qed.

Lemma reachable_step a p : reachable p -> reachable (step a p).
Proof.
  intros [[c E]|I].
  - left. exists c. now rewrite (step_exited a p c E).
  - right. now apply Inv_step.
Qed.

Lemma reachable_run sched p : reachable p -> reachable (run sched p).
Proof.
  revert p. induction sched as [|a sched IH]; intros p R; [exact R|].
  simpl. apply IH. now apply reachable_step.
Qed.

Lemma reachable_main w sched : reachable (main w sched).
Proof. apply reachable_run, reachable_boot. Qed.

Lemma benign_delivery_ignored a p :
  reachable p -> benign_delivery a = true -> step a p = p.
Proof.
  intros [[c E]|I] Ha; [now apply step_exited with (c := c)|].
  destruct a as [| |s| | |]; try discriminate.
  unfold step. destruct (exited p); [reflexivity|].
  unfold deliver. rewrite (inv_notified _ I), (inv_ignored _ I).
  destruct s; try discriminate; reflexivity.
Qed.

Lemma run_without_benign sched p :
  reachable p ->
  run (filter (fun a => negb (benign_delivery a)) sched) p = run sched p.
Proof.
  revert p. induction sched as [|a sched IH]; intros p R; [reflexivity|].
  simpl. destruct (benign_delivery a) eqn:Ha; simpl.
  - rewrite (benign_delivery_ignored a p R Ha). now apply IH.
  - apply IH. now apply reachable_step.
Qed.

Lemma trigger_step a p :
  exited p = None ->
  sigquit (step a p) <> [] \/ triggered (step a p) = true ->
  (sigquit p <> [] \/ triggered p = true) \/
  (exists s, a = Deliver s /\ sig_mem s (notified p) = true).
Proof.
  intros Ex. unfold step. rewrite Ex. unfold triggered, coordinator_of.
  destruct a.
  - unfold main_step.
    destruct (mpc p) eqn:Em; simpl; try destruct (srv p) eqn:Es;
      try destruct (is_server_error err) eqn:Ee;
      rewrite ?emits_eq; simpl; auto.
  - unfold go_step.
    destruct (gpc p) as [[]|] eqn:Eg; try destruct (sigquit p) eqn:Eq;
      try destruct err;
      simpl; rewrite ?Eg, ?Eq; simpl; auto;
      intros _; left; left; discriminate.
  - unfold deliver. destruct (sig_mem s (notified p)) eqn:Hm.
    + intros _. right. now exists s.
    + destruct (sig_mem s (ignored p)); simpl; auto.
  - destruct (mpc p); auto. destruct (srv p); auto.
  - destruct (mpc p); auto.
  - destruct (gpc p) as [[]|] eqn:Eg; simpl; rewrite ?Eg; auto.
Qed.

Lemma triggered_by_termination_signal w sched :
  sigquit (main w sched) <> [] \/ triggered (main w sched) = true ->
  exists s, is_termination s = true /\ In (Deliver s) sched.
Proof.
  induction sched as [|a sched IH] using rev_ind; intros H.
  - exfalso. unfold main in H. simpl in H.
    destruct (bootstrapped w) eqn:Hb.
    + rewrite (boot_success w Hb) in H. simpl in H.
      destruct H as [H|H]; [now apply H | discriminate].
    + destruct (failed_boot_facts w Hb) as (_ & _ & G & c & E).
      destruct (boot_quiet w) as (_ & _ & _ & _ & _ & Hq & _).
      unfold triggered, coordinator_of in H. rewrite G, Hq in H.
      destruct H as [H|H]; [now apply H | discriminate].
  - unfold main in *. rewrite run_snoc in H.
    destruct (exited (run sched (boot w))) as [c|] eqn:Ex.
    + rewrite (step_exited a _ c Ex) in H.
      destruct (IH H) as (s & Hs & Hin). exists s. split; [exact Hs|].
      apply in_or_app. now left.
    + destruct (trigger_step a _ Ex H) as [H'|(s & -> & Hm)].
      * destruct (IH H') as (s & Hs & Hin). exists s. split; [exact Hs|].
        apply in_or_app. now left.
      * exists s. split; [|apply in_or_app; right; now left].
        destruct (reachable_main w sched) as [[c E]|I];
          [unfold main in E; congruence|].
        unfold main in I. rewrite (inv_notified _ I) in Hm.
        destruct s; try discriminate; reflexivity.
Qed.

(** C7.  SIGHUP and SIGPIPE are ignored: in every state of every run
    their delivery changes nothing, and a schedule with those deliveries
    removed ends in the same state.  The coordinator leaves the armed
    state only after SIGINT or SIGTERM has been delivered, and from the
    armed state the delivery of either, once the goroutine runs, makes it
    triggered. *)
Theorem termination_signals_trigger_benign_ignored
  (w : world) (sched : list action) (s : Signal) :
  let p := main w sched in
  (step (Deliver SIGHUP) p = p /\ step (Deliver SIGPIPE) p = p) /\
  main w (filter (fun a => negb (benign_delivery a)) sched) = p /\
  (bootstrapped w = true ->
     ignored p = [SIGHUP; SIGPIPE] /\ notified p = [SIGINT; SIGTERM]) /\
  (triggered p = true ->
     exists s', (s' = SIGINT \/ s' = SIGTERM) /\ In (Deliver s') sched) /\
  (coordinator_of p = Armed -> exited p = None -> s = SIGINT \/ s = SIGTERM ->
     coordinator_of (run [Deliver s; StepGo] p) = Triggered).
Proof.
  intros p. subst p.
  pose proof (reachable_main w sched) as R.
  split; [|split; [|split; [|split]]].
  - split; now apply benign_delivery_ignored.
  - unfold main. apply run_without_benign, reachable_boot.
  - intros Hb. pose proof (Inv_main w sched Hb) as I.
    split; [apply (inv_ignored _ I) | apply (inv_notified _ I)].
  - intros H.
    destruct (triggered_by_termination_signal w sched (or_intror H))
      as (s' & Hs & Hin).
    exists s'. split; [|exact Hin]. destruct s'; try discriminate; auto.
  - intros Ha Ex Hs. destruct R as [[c E]|I]; [congruence|].
    pose proof (inv_notified _ I) as Hn. pose proof (inv_chan _ I) as Hc.
    remember (main w sched) as p eqn:Ep. clear Ep I.
    unfold coordinator_of in *.
    destruct p as [tr rd ig nt sq sv ad mp gp df ex]; simpl in *; subst.
    destruct gp as [[]|]; try discriminate.
    unfold run, step, deliver, go_step. simpl.
    destruct Hs as [->| ->]; simpl;
      destruct sq as [|s0 [|s1 sq]]; reflexivity.
Qed.

Lemma termination_signals_trigger_benign_ignored_witness :
  coordinator_of (run [Deliver SIGINT; StepGo] (main world_ok [StepMain])) =
  Triggered.
Proof.
  apply (termination_signals_trigger_benign_ignored world_ok [StepMain] SIGINT);
    [reflexivity | reflexivity | now left].
Defined.

(** ** Drain failures *)

Lemma erase_step a p : erase (step a p) = step (erase_drain a) (erase p).
Proof.
  unfold step. simpl. destruct (exited p) eqn:Ex; [reflexivity|].
  destruct a; simpl.
  - unfold main_step. simpl.
    destruct (mpc p) eqn:Em; simpl; try reflexivity;
      try (unfold erase; simpl; rewrite ?filter_app; reflexivity).
    + destruct (srv p); unfold erase; simpl; rewrite ?filter_app; reflexivity.
    + destruct (srv p); unfold erase; simpl; rewrite ?Em; reflexivity.
    + destruct (is_server_error err); unfold erase; simpl;
        rewrite ?filter_app; reflexivity.
    + rewrite !emits_eq. unfold erase. simpl.
      rewrite !filter_app, Ex. reflexivity.
  - unfold go_step. simpl.
    destruct (gpc p) as [[]|] eqn:Eg; simpl; try reflexivity;
      try (unfold erase; simpl; rewrite ?filter_app, ?Eg; reflexivity).
    + destruct (sigquit p); unfold erase; simpl; rewrite ?Eg; reflexivity.
    + destruct err; unfold erase; simpl; rewrite ?filter_app, ?app_nil_r;
        reflexivity.
  - unfold deliver. simpl.
    destruct (sig_mem s (notified p)).
    + destruct (List.length (sigquit p) <? 1)%nat; reflexivity.
    + destruct (sig_mem s (ignored p)); [reflexivity|].
      unfold erase. simpl. rewrite filter_app. reflexivity.
  - destruct (mpc p); try reflexivity.
    destruct (srv p); try reflexivity.
    unfold erase. simpl. rewrite filter_app. reflexivity.
  - destruct (mpc p); reflexivity.
  - destruct (gpc p) as [[]|]; reflexivity.
Qed.

Lemma erase_run sched p :
  erase (run sched p) = run (map erase_drain sched) (erase p).
Proof.
  revert p. induction sched as [|a sched IH]; intros p; [reflexivity|].
  simpl. rewrite IH. now rewrite erase_step.
Qed.

Lemma erase_id p :
  filter keep (trace p) = trace p ->
  filter keep (deferred p) = deferred p ->
  (gpc p = None \/ gpc p = Some GRecv) ->
  erase p = p.
Proof.
  destruct p as [tr rd ig nt sq sv ad mp gp df ex]. unfold erase. simpl.
  intros -> -> [-> | ->]; reflexivity.
Qed.

Lemma boot_clean w :
  filter keep (trace (boot w)) = trace (boot w) /\
  filter keep (deferred (boot w)) = deferred (boot w) /\
  (gpc (boot w) = None \/ gpc (boot w) = Some GRecv).
Proof.
  unfold boot, main_bootstrap, parseFlags, initDatabase.
  destruct (flags_Parse w) as [cfg [fe|]] eqn:Ef; simpl.
  - unfold bind, call, os_Exit. simpl.
    destruct (is_ErrHelp (Type_ fe)); simpl; auto.
  - unfold bind, call, os_Exit, when, ret, logger_Info, logger_Fatal, modify.
    simpl. destruct (Version cfg) eqn:Ev; simpl; auto.
    destruct (postgres_New w) eqn:En; simpl; auto.
    destruct (db_Connect w) eqn:Ec; simpl; auto.
    destruct (db_Migrate w (article_Migrations w)) eqn:Em; simpl; auto.
Qed.

Lemma erase_boot w : erase (boot w) = boot w.
Proof.
  destruct (boot_clean w) as (Ht & Hd & Hg). now apply erase_id.
Qed.

Lemma erase_main w sched :
  erase (main w sched) = main w (map erase_drain sched).
Proof. unfold main. now rewrite erase_run, erase_boot. Qed.

(** C8.  When [Shutdown] returns an error to the goroutine, the next
    statement of the goroutine logs it at error level and the goroutine
    ends; the process is not ended by it and the main goroutine stays
    where it was.  The drain result is invisible to the main goroutine:
    the same schedule with every drain result replaced by success leaves
    the main goroutine, the exit status, the server and the readiness
    status as they are.  When the main goroutine has returned, the exit
    status is 0; after a failed drain, the main goroutine leaves its
    listen call, logs no server error and exits with status 0. *)
Theorem drain_error_logged_not_escalated
  (w : world) (sched : list action) (e : error) :
  let p := main w sched in
  let q := main w (map erase_drain sched) in
  (mpc q = mpc p /\ exited q = exited p /\ srv q = srv p /\
   readiness q = readiness p /\ coordinator_of q = coordinator_of p) /\
  (mpc p = MDone -> exited p = Some 0%Z) /\
  (coordinator_of p = Draining -> exited p = None ->
     let p' := run [DrainReturn (Some e); StepGo] p in
     trace p' = trace p ++ [ELog ErrorLevel "could not shutdown server" (Some e)] /\
     exited p' = None /\ gpc p' = Some GDone /\ mpc p' = mpc p) /\
  (coordinator_of p = Draining -> exited p = None -> mpc p = MListening ->
     let p' := run [DrainReturn (Some e); StepGo; StepMain; StepMain; StepMain] p in
     exited p' = Some 0%Z /\ mpc p' = MDone /\
     server_error_logs (trace p') = []).
Proof.
  intros p q. subst p q.
  split; [|split; [|split]].
  - rewrite <- erase_main. unfold erase, coordinator_of. simpl.
    repeat split.
    destruct (gpc (main w sched)) as [[]|]; reflexivity.
  - intros Hm. destruct (bootstrapped w) eqn:Hb.
    + now apply (inv_exit0 _ (Inv_main w sched Hb)).
    + rewrite (main_not_bootstrapped w sched Hb) in Hm.
      destruct (boot_quiet w) as (_ & _ & _ & _ & _ & _ & Hn). now elim Hn.
  - intros Hd Ex. unfold coordinator_of in Hd.
    remember (main w sched) as p eqn:Ep. clear Ep.
    destruct p as [tr rd ig nt sq sv ad mp gp df ex]; simpl in *; subst.
    destruct gp as [[]|]; try discriminate.
    unfold run; simpl fold_left. repeat step1. simpl. auto.
  - intros Hd Ex Hm. destruct (reachable_main w sched) as [[c E]|I];
      [congruence|].
    pose proof (inv_srv _ I) as Hs. pose proof (inv_deferred _ I) as Hdf.
    pose proof (inv_quiet _ I) as Hq.
    unfold coordinator_of in Hd.
    remember (main w sched) as p eqn:Ep. clear Ep I.
    destruct p as [tr rd ig nt sq sv ad mp gp df ex]; simpl in *; subst.
    destruct gp as [[]|]; try discriminate. simpl in Hs.
    destruct sv; try discriminate.
    unfold run; simpl fold_left. repeat step1. simpl.
    repeat split. snoc. simpl. rewrite !app_nil_r. now apply Hq.
Qed.

Lemma drain_error_logged_not_escalated_witness :
  let p := main world_ok [StepMain; StepMain; StepMain; Deliver SIGTERM;
                          StepGo; StepGo; StepGo; StepGo; StepGo] in
  let p' := run [DrainReturn (Some (ErrOther "listener")); StepGo] p in
  trace p' =
    trace p ++ [ELog ErrorLevel "could not shutdown server"
                  (Some (ErrOther "listener"))] /\
  exited p' = None /\ gpc p' = Some GDone /\ mpc p' = mpc p.
Proof.
  pose proof (drain_error_logged_not_escalated world_ok
                [StepMain; StepMain; StepMain; Deliver SIGTERM;
                 StepGo; StepGo; StepGo; StepGo; StepGo]
                (ErrOther "listener")) as H.
  cbv zeta in H. destruct H as (_ & _ & H & _).
  cbv zeta. apply H; vm_compute; reflexivity.
Defined.

(** ** The result of the listen call *)

Lemma is_server_error_spec err :
  is_server_error err = true <-> err <> None /\ err <> Some ErrServerClosed.
Proof.
  destruct err as [[]|]; simpl; split; intros H;
    try discriminate; try (split; discriminate);
    try (destruct H as [H1 H2]; congruence).
Qed.

(** C10.  When the listen call has returned [err], the next statement of
    the main goroutine logs a server error exactly when [err] is neither
    [nil] nor [http.ErrServerClosed], and nothing was logged as a server
    error before; in particular nothing is logged for
    [http.ErrServerClosed], which is what the listen call returns once
    [Shutdown] has been called.  Every server error in any trace carries
    an error of that kind. *)
Theorem server_error_logged_iff_not_closed
  (w : world) (sched : list action) (err : option error) :
  let p := main w sched in
  (mpc p = MListenReturned err -> exited p = None ->
     let p' := step StepMain p in
     server_error_logs (trace p) = [] /\
     server_error_logs (trace p') =
       (if is_server_error err then [ELog ErrorLevel "server error" err] else []) /\
     ((exists x, In x (server_error_logs (trace p'))) <->
      (err <> None /\ err <> Some ErrServerClosed)) /\
     (err = Some ErrServerClosed -> server_error_logs (trace p') = []) /\
     mpc p' = MReturn) /\
  (mpc p = MListening -> exited p = None -> in_shutdown (srv p) = true ->
     mpc (step StepMain p) = MListenReturned (Some ErrServerClosed)) /\
  Forall genuine_server_error_log (server_error_logs (trace p)).
Proof.
  intros p. subst p. split; [|split].
  - intros Hm Ex. destruct (reachable_main w sched) as [[c E]|I];
      [congruence|].
    pose proof (inv_quiet _ I) as Hq. rewrite Hm in Hq.
    specialize (Hq eq_refl).
    assert (Hlogs : server_error_logs (trace (step StepMain (main w sched))) =
                    if is_server_error err
                    then [ELog ErrorLevel "server error" err] else []).
    { unfold step. rewrite Ex. unfold main_step. rewrite Hm.
      destruct (is_server_error err); simpl; snoc; rewrite Hq; reflexivity. }
    cbv zeta. rewrite Hlogs. split; [exact Hq|]. split; [reflexivity|].
    split; [|split].
    + rewrite <- is_server_error_spec.
      destruct (is_server_error err); split.
      * reflexivity.
      * intros _. eexists. now left.
      * intros [x []].
      * discriminate.
    + intros ->. reflexivity.
    + unfold step. rewrite Ex. unfold main_step. rewrite Hm. reflexivity.
  - intros Hm Ex Hs. unfold step. rewrite Ex. unfold main_step. rewrite Hm.
    destruct (srv (main w sched)); try discriminate. reflexivity.
  - destruct (reachable_main w sched) as [[c E]|I].
    + destruct (bootstrapped w) eqn:Hb.
      * apply (inv_genuine _ (Inv_main w sched Hb)).
      * rewrite (main_not_bootstrapped w sched Hb).
        destruct (boot_quiet w) as (_ & _ & _ & _ & -> & _). constructor.
    + apply (inv_genuine _ I).
Qed.

Lemma server_error_logged_iff_not_closed_witness :
  let p := main world_ok [StepMain; StepMain; StepMain;
                          ListenReturn (Some (ErrOther "bind"))] in
  let p' := step StepMain p in
  server_error_logs (trace p) = [] /\
  server_error_logs (trace p') =
    [ELog ErrorLevel "server error" (Some (ErrOther "bind"))] /\
  ((exists x, In x (server_error_logs (trace p'))) <->
   (Some (ErrOther "bind") <> None /\
    Some (ErrOther "bind") <> Some ErrServerClosed)) /\
  (Some (ErrOther "bind") = Some ErrServerClosed ->
   server_error_logs (trace p') = []) /\
  mpc p' = MReturn.
Proof.
  pose proof (server_error_logged_iff_not_closed world_ok
                [StepMain; StepMain; StepMain;
                 ListenReturn (Some (ErrOther "bind"))]
                (Some (ErrOther "bind"))) as H.
  cbv zeta in H. destruct H as (H & _).
  cbv zeta. apply H; vm_compute; reflexivity.
Defined.

(** ** The middleware pipeline *)

Lemma visited_log_request e st : visited (log_request e st) = visited st.
Proof. reflexivity. Qed.

(** Whatever list of interceptors is installed, a request that is not a
    preflight enters them in the order of the list and then the router. *)
Lemma chain_visits_in_order k cm (ms : list stage) :
  ~ In Router ms ->
  forall c st,
    String.eqb (Method (rq c)) MethodOptions = false ->
    visited (fst (chain (map (middleware_of k cm) ms) (router k) c st)) =
    visited st ++ ms ++ [Router].
Proof.
  induction ms as [|m ms IH]; intros Hn c st Hm.
  - reflexivity.
  - assert (Hn' : ~ In Router ms) by (intros H; apply Hn; now right).
    specialize (IH Hn').
    change (chain (map (middleware_of k cm) (m :: ms)) (router k))
      with (middleware_of k cm m (chain (map (middleware_of k cm) ms) (router k))).
    set (next := chain (map (middleware_of k cm) ms) (router k)) in *.
    destruct m; simpl.
    + unfold middleware_RequestID. rewrite IH by exact Hm.
      simpl. now rewrite <- app_assoc.
    + unfold middleware_RealIP. rewrite IH by exact Hm.
      simpl. now rewrite <- app_assoc.
    + unfold handler_RequestLogger.
      pose proof (IH c (enter RequestLogger st) Hm) as E.
      destruct (next c (enter RequestLogger st)) as [st' [status|v]];
        simpl in *; rewrite E; now rewrite <- app_assoc.
    + unfold middleware_Recoverer.
      pose proof (IH c (enter Recoverer st) Hm) as E.
      destruct (next c (enter Recoverer st)) as [st' [status|v]];
        simpl in *; rewrite E; now rewrite <- app_assoc.
    + unfold cors_Handler. rewrite Hm. rewrite IH by exact Hm.
      simpl. now rewrite <- app_assoc.
    + exfalso. apply Hn. now left.
Qed.

(** C3.  The handler of the server is the five interceptors nested in the
    order in which [main] hands them to [Use], the first outermost.  Every
    request enters request-identifier assignment, client-address
    normalization, request logging, panic recovery and CORS enforcement in
    that order, and then the router unless the CORS stage answered a
    preflight itself.  The one entry that the logging stage writes carries
    the identifier and the address that the two stages before it
    produced. *)
Theorem middleware_execution_order
  (k : collaborators) (cfg : cliFlags) (r : request) :
  let out := ServeHTTP k cfg r in
  middlewares = [RequestID; RealIP; RequestLogger; Recoverer; CorsHandler] /\
  srv_Handler k cfg =
    middleware_RequestID k
      (middleware_RealIP
         (handler_RequestLogger
            (middleware_Recoverer
               (cors_Handler k (cors_New (corsOptions cfg)) (router k))))) /\
  visited (fst out) =
    [RequestID; RealIP; RequestLogger; Recoverer; CorsHandler] ++
    (if String.eqb (Method r) MethodOptions then [] else [Router]) /\
  (exists status,
     snd out = Response status /\
     access_log (fst out) =
       [{| le_RequestID := ctx_RequestID (ctx_at_router k r);
           le_RemoteAddr := ctx_RemoteAddr (ctx_at_router k r);
           le_Status := status |}]) /\
  ctx_RequestID (ctx_at_router k r) <> None.
Proof.
  intros out. subst out.
  split; [reflexivity|]. split; [reflexivity|].
  unfold ServeHTTP, srv_Handler, chain, middlewares. simpl.
  unfold middleware_RequestID, middleware_RealIP, handler_RequestLogger,
    middleware_Recoverer, cors_Handler, router. simpl.
  destruct (String.eqb (Method r) MethodOptions) eqn:Hm; simpl.
  - split; [reflexivity|]. split; [|discriminate].
    exists StatusOK. split; reflexivity.
  - destruct (routes k _) as [status|v] eqn:Hr; simpl.
    + split; [reflexivity|]. split; [|discriminate].
      exists status. split; reflexivity.
    + split; [reflexivity|]. split; [|discriminate].
      exists StatusInternalServerError. split; reflexivity.
Qed.

(** C4.  Serving a request never panics, and the logging stage writes one
    entry with the status of the response.  When the request reaches the
    routes and the route handler panics, the response is 500 Internal
    Server Error and that is the status in the log entry. *)
Theorem panic_recovered_and_logged
  (k : collaborators) (cfg : cliFlags) (r : request) (v : string) :
  let out := ServeHTTP k cfg r in
  (exists status, snd out = Response status /\
                  map le_Status (access_log (fst out)) = [status]) /\
  (String.eqb (Method r) MethodOptions = false ->
   routes k (ctx_at_router k r) = Panicked v ->
     snd out = Response StatusInternalServerError /\
     visited (fst out) = middlewares ++ [Router] /\
     access_log (fst out) =
       [{| le_RequestID := ctx_RequestID (ctx_at_router k r);
           le_RemoteAddr := ctx_RemoteAddr (ctx_at_router k r);
           le_Status := StatusInternalServerError |}]).
Proof.
  intros out. subst out.
  unfold ServeHTTP, srv_Handler, chain, middlewares. simpl.
  unfold middleware_RequestID, middleware_RealIP, handler_RequestLogger,
    middleware_Recoverer, cors_Handler, router, ctx_at_router. simpl.
  destruct (String.eqb (Method r) MethodOptions) eqn:Hm; simpl.
  - split; [|discriminate]. exists StatusOK. split; reflexivity.
  - destruct (routes k _) as [status|v'] eqn:Hr; simpl.
    + split; [|intros _; discriminate]. exists status. split; reflexivity.
    + split; [|intros _ _; repeat split; reflexivity].
      exists StatusInternalServerError. split; reflexivity.
Qed.

Lemma panic_recovered_and_logged_witness :
  snd (ServeHTTP k_panicking cfg0 get_articles) =
    Response StatusInternalServerError /\
  visited (fst (ServeHTTP k_panicking cfg0 get_articles)) =
    middlewares ++ [Router] /\
  access_log (fst (ServeHTTP k_panicking cfg0 get_articles)) =
    [{| le_RequestID := Some "host/000001";
        le_RemoteAddr := "203.0.113.7";
        le_Status := 500 |}].
Proof.
  apply (panic_recovered_and_logged k_panicking cfg0 get_articles "runtime error");
    reflexivity.
Defined.

(** ** CORS options *)

(** C9.  Whatever the configuration, the options [main] passes to the CORS
    package allow exactly GET, PUT and DELETE and set AllowCredentials;
    the check of the package then accepts a method exactly when, in upper
    case, it is one of these or OPTIONS.  POST is not accepted: neither an
    actual POST request nor a preflight asking for POST is granted access,
    and serving a POST request leaves no origin granted. *)
Theorem cors_methods_hardcoded
  (k : collaborators) (cfg : cliFlags) (r : request) (m : string) :
  let cm := cors_New (corsOptions cfg) in
  co_AllowedMethods (corsOptions cfg) = ["GET"; "PUT"; "DELETE"] /\
  co_AllowCredentials (corsOptions cfg) = true /\
  allowedMethods cm = ["GET"; "PUT"; "DELETE"] /\
  allowCredentials cm = true /\
  isMethodAllowed cm m =
    existsb (String.eqb (ToUpper m)) ["OPTIONS"; "GET"; "PUT"; "DELETE"] /\
  isMethodAllowed cm "POST" = false /\
  handleActualRequest k cm (set_Method "POST" r) = false /\
  handlePreflight k cm (set_RequestMethod "POST" r) = false /\
  allow_origin (fst (ServeHTTP k cfg (set_Method "POST" r))) = None /\
  co_AllowedOrigins (corsOptions cfg) = AllowedOrigins (HTTP cfg) /\
  co_AllowedHeaders (corsOptions cfg) = AllowedHeaders (HTTP cfg) /\
  co_ExposedHeaders (corsOptions cfg) = ExposedHeaders (HTTP cfg).
Proof.
  intros cm. subst cm.
  assert (Hpost : isMethodAllowed (cors_New (corsOptions cfg)) "POST" = false)
    by reflexivity.
  split; [reflexivity|]. split; [reflexivity|]. split; [reflexivity|].
  split; [reflexivity|]. split; [reflexivity|]. split; [exact Hpost|].
  split; [|split; [|split; [|repeat split]]].
  - unfold handleActualRequest. simpl. rewrite Hpost. apply andb_false_r.
  - unfold handlePreflight. simpl. rewrite Hpost.
    now rewrite andb_false_r.
  - unfold ServeHTTP, srv_Handler, chain, middlewares. simpl.
    unfold middleware_RequestID, middleware_RealIP, handler_RequestLogger,
      middleware_Recoverer, cors_Handler, router. simpl.
    unfold handleActualRequest. simpl. rewrite Hpost, andb_false_r.
    destruct (routes k _); reflexivity.
Qed.

(** ** The migration runner *)

Section MigrationRunner.

Context {schema : Type}.
Implicit Types (s : store schema) (ms : list (Migration schema)).

Lemma in_ledger_app id l1 l2 :
  in_ledger id (l1 ++ l2) = in_ledger id l1 || in_ledger id l2.
Proof. unfold in_ledger. apply existsb_app. Qed.

(** The ledger only grows. *)
Lemma migrate_loop_ledger now ms :
  forall s tried n,
  exists added,
    ledger (final (migrate_loop now ms s tried n)) = ledger s ++ added.
Proof.
  induction ms as [|m ms IH]; intros s tried n; simpl.
  - exists []. now rewrite app_nil_r.
  - destruct (in_ledger (Id m) (ledger s)); [apply IH|].
    destruct (applyFn m (data s)) as [d|].
    + destruct (IH {| ledger := ledger s ++ [{| le_id := Id m; appliedAt := now |}];
                      data := d |} (tried ++ [Id m]) (S n)) as [added E].
      rewrite E. simpl. rewrite <- app_assoc. eauto.
    + exists []. simpl. now rewrite app_nil_r.
Qed.

Lemma migrate_loop_keeps now ms s tried n id :
  in_ledger id (ledger s) = true ->
  in_ledger id (ledger (final (migrate_loop now ms s tried n))) = true.
Proof.
  intros H. destruct (migrate_loop_ledger now ms s tried n) as [added E].
  rewrite E, in_ledger_app, H. reflexivity.
Qed.

(** After a run without error every declared migration is recorded. *)
Lemma migrate_loop_records now ms :
  forall s tried n k,
    outcome (migrate_loop now ms s tried n) = Applied k ->
    forall m, In m ms ->
      in_ledger (Id m) (ledger (final (migrate_loop now ms s tried n))) = true.
Proof.
  induction ms as [|m0 ms IH]; intros s tried n k Ho m Hin; [destruct Hin|].
  simpl in *. destruct (in_ledger (Id m0) (ledger s)) eqn:Hl.
  - destruct Hin as [<-|Hin]; [|now apply (IH s tried n k)].
    now apply migrate_loop_keeps.
  - destruct (applyFn m0 (data s)) as [d|]; [|discriminate].
    destruct Hin as [<-|Hin]; [|now apply (IH _ _ _ k)].
    apply migrate_loop_keeps. simpl.
    rewrite in_ledger_app. simpl. rewrite String.eqb_refl.
    now rewrite orb_true_r.
Qed.

(** A run over a list in two parts. *)
Lemma migrate_loop_app now ms1 ms2 :
  forall s tried n,
    migrate_loop now (ms1 ++ ms2) s tried n =
    let r := migrate_loop now ms1 s tried n in
    match outcome r with
    | Applied k => migrate_loop now ms2 (final r) (attempted r) k
    | MigrationError _ => r
    end.
Proof.
  induction ms1 as [|m ms1 IH]; intros s tried n; simpl; [reflexivity|].
  destruct (in_ledger (Id m) (ledger s)); [apply IH|].
  destruct (applyFn m (data s)); [apply IH | reflexivity].
Qed.

(** Running the same list again from the store the first run left. *)
Lemma migrate_loop_again now now' ms :
  forall s tried n tried' n',
    let r := migrate_loop now ms s tried n in
    migrate_loop now' ms (final r) tried' n' =
    match outcome r with
    | Applied _ =>
        {| final := final r; attempted := tried'; outcome := Applied n' |}
    | MigrationError id =>
        {| final := final r; attempted := tried' ++ [id];
           outcome := MigrationError id |}
    end.
Proof.
  induction ms as [|m ms IH]; intros s tried n tried' n'; [reflexivity|].
  simpl. destruct (in_ledger (Id m) (ledger s)) eqn:Hl.
  - rewrite (migrate_loop_keeps now ms s tried n (Id m) Hl). apply IH.
  - destruct (applyFn m (data s)) as [d|] eqn:Ha.
    + rewrite migrate_loop_keeps; [apply IH|].
      simpl. rewrite in_ledger_app. simpl. rewrite String.eqb_refl.
      now rewrite orb_true_r.
    + simpl. rewrite Hl, Ha. reflexivity.
Qed.

(** C5.  When the migrations before [m] run without error and applying
    [m] fails, the run reports a MigrationError with the id of [m]; it
    attempts what the run of the earlier migrations attempted and then
    [m], and nothing of what is declared after [m], which has no
    influence on the run at all.  The store is the one the earlier
    migrations left: every entry of the ledger it started from, and an
    entry for each earlier migration, is recorded in it. *)
Theorem migration_failure_stops_and_keeps_ledger
  (now : Z) s (pre : list (Migration schema)) (m : Migration schema)
  (post : list (Migration schema)) (n : nat) :
  outcome (migrate now s pre) = Applied n ->
  in_ledger (Id m) (ledger (final (migrate now s pre))) = false ->
  applyFn m (data (final (migrate now s pre))) = None ->
  let r := migrate now s (pre ++ m :: post) in
  outcome r = MigrationError (Id m) /\
  attempted r = attempted (migrate now s pre) ++ [Id m] /\
  final r = final (migrate now s pre) /\
  (forall post', migrate now s (pre ++ m :: post') = r) /\
  (forall e, In e (ledger s) -> In e (ledger (final r))) /\
  (forall p, In p pre -> in_ledger (Id p) (ledger (final r)) = true).
Proof.
  intros Ho Hl Ha r.
  assert (Hr : forall post',
             migrate now s (pre ++ m :: post') =
             {| final := final (migrate now s pre);
                attempted := attempted (migrate now s pre) ++ [Id m];
                outcome := MigrationError (Id m) |}).
  { intros post'. unfold migrate in *. rewrite migrate_loop_app.
    cbv zeta. rewrite Ho. simpl. rewrite Hl, Ha. reflexivity. }
  subst r. rewrite (Hr post). simpl.
  repeat split.
  - intros post'. apply Hr.
  - intros e He. unfold migrate.
    destruct (migrate_loop_ledger now pre s [] 0%nat) as [added E].
    rewrite E. apply in_or_app. now left.
  - intros p Hp. unfold migrate in *.
    now apply (migrate_loop_records now pre s [] 0%nat n).
Qed.

(** C6 as amended.  A second run of the same list on the store the first
    run left changes nothing in the store.  It reports zero applied
    migrations, attempting none, when the first run ended without error;
    when the first run stopped at a failing migration, the second run
    attempts that migration again and reports the same error. *)
Theorem migrate_second_run_applies_nothing
  (now now' : Z) s ms :
  NoDup (map Id ms) ->
  let r1 := migrate now s ms in
  let r2 := migrate now' (final r1) ms in
  final r2 = final r1 /\
  match outcome r1 with
  | Applied _ => outcome r2 = Applied 0 /\ attempted r2 = []
  | MigrationError id => outcome r2 = MigrationError id /\ attempted r2 = [id]
  end.
Proof.
  intros _ r1 r2. subst r1 r2. unfold migrate.
  rewrite migrate_loop_again.
  destruct (outcome (migrate_loop now ms s [] 0)); simpl; auto.
Qed.

End MigrationRunner.

Lemma migration_failure_stops_and_keeps_ledger_witness :
  let r := migrate 7 store_with_comments
             ([create_table "articles"] ++
              create_table "comments" :: [create_table "tags"]) in
  outcome r = MigrationError "comments" /\
  attempted r = ["articles"; "comments"] /\
  map le_id (ledger (final r)) = ["articles"].
Proof.
  pose proof (migration_failure_stops_and_keeps_ledger 7 store_with_comments
                [create_table "articles"] (create_table "comments")
                [create_table "tags"] 1) as H.
  cbv zeta in H.
  destruct H as (Ho & Ha & Hf & _); [reflexivity | reflexivity | reflexivity |].
  cbv zeta. rewrite Ho, Ha, Hf. repeat split; reflexivity.
Defined.

Lemma migrate_second_run_applies_nothing_witness :
  final (migrate 8 (final (migrate 7 store_with_comments
                             [create_table "articles"; create_table "tags"]))
                 [create_table "articles"; create_table "tags"]) =
  final (migrate 7 store_with_comments
           [create_table "articles"; create_table "tags"]) /\
  outcome (migrate 8 (final (migrate 7 store_with_comments
                               [create_table "articles"; create_table "tags"]))
                   [create_table "articles"; create_table "tags"]) =
  Applied 0.
Proof.
  pose proof (migrate_second_run_applies_nothing 7 8 store_with_comments
                [create_table "articles"; create_table "tags"]) as H.
  cbv zeta in H.
  destruct H as (Hf & Ho).
  - repeat constructor; simpl; intuition discriminate.
  - split; [exact Hf|]. vm_compute in Ho. vm_compute. apply Ho.
Defined.

(** C6 as stated does not hold: a run that stopped at a failing migration
    is followed by a run that reports that error again, not a count of
    zero. *)
Lemma migrate_second_run_counterexample :
  ~ (forall (schema : Type) (now : Z) (s : store schema)
            (ms : list (Migration schema)),
        NoDup (map Id ms) ->
        outcome (migrate now (final (migrate now s ms)) ms) = Applied 0).
Proof.
  intros H.
  specialize (H unit 0%Z empty_store [never_applies]).
  assert (Hn : NoDup (map Id [never_applies]))
    by (repeat constructor; simpl; intuition).
  specialize (H Hn). vm_compute in H. discriminate.
Qed.

(** * Further properties of [main.go] *)

(** ** [parseFlags] *)



(** ** [initDatabase] *)

(** X2.  [initDatabase] makes its calls in the order [postgres.New],
    [Connect], [Migrate] and stops at the first that fails: it returns that
    error and no handle, and makes none of the later calls.  When none
    fails it returns a handle for the given DSN and pool configuration and
    no error.  The migrations handed to [Migrate] are those of the article
    package.  It never ends the process and registers nothing to be
    deferred. *)
Theorem initDatabase_first_error
  (w : world) (dsn : string) (pcfg : postgres_Config) (p : proc) :
  let ms := article_Migrations w in
  let err := first_error [postgres_New w; db_Connect w; db_Migrate w ms] in
  let out := initDatabase w dsn pcfg p in
  fst out =
    Val (match err with
         | None => Some {| db_dsn := dsn; db_pcfg := pcfg |}
         | Some _ => None
         end, err) /\
  trace (snd out) =
    trace p ++ EPostgresNew dsn pcfg ::
    match postgres_New w with
    | Some _ => []
    | None => EConnect :: match db_Connect w with
                          | Some _ => []
                          | None => [EMigrate ms]
                          end
    end /\
  exited (snd out) = exited p /\ deferred (snd out) = deferred p /\
  readiness (snd out) = readiness p /\ srv (snd out) = srv p.
Proof.
  intros ms err out. subst ms err out. unfold initDatabase. simpl.
  unfold bind, call, ret. simpl.
  destruct (postgres_New w) as [e1|]; simpl.
  - repeat split; reflexivity.
  - destruct (db_Connect w) as [e2|]; simpl.
    + rewrite <- app_assoc. repeat split; reflexivity.
    + destruct (db_Migrate w (article_Migrations w)) as [e3|]; simpl;
        rewrite <- !app_assoc; repeat split; reflexivity.
Qed.

(** ** The second invariant *)

Lemma db_closes_snoc t e :
  db_closes (t ++ [e]) =
  (db_closes t + match e with EDbClose => 1 | _ => 0 end)%nat.
Proof.
  unfold db_closes. rewrite filter_app, length_app. destruct e; reflexivity.
Qed.

Lemma fatal_logs_snoc t e :
  fatal_logs (t ++ [e]) = fatal_logs t ++ (if is_fatal_log e then [e] else []).
Proof. unfold fatal_logs. now rewrite filter_app. Qed.

Lemma listen_addrs_snoc t e :
  listen_addrs (t ++ [e]) =
  listen_addrs t ++ match e with EListenAndServe a => [a] | _ => [] end.
Proof.
  unfold listen_addrs. rewrite flat_map_app. simpl. now rewrite app_nil_r.
Qed.

Lemma prefix_snoc (b t : list event) e :
  extends b t -> extends b (t ++ [e]).
Proof. intros [t' ->]. exists (t' ++ [e]). now rewrite app_assoc. Qed.

Ltac snoc2 :=
  rewrite ?db_closes_snoc, ?fatal_logs_snoc, ?listen_addrs_snoc.

Ltac inv2_case :=
  constructor; simpl; snoc2; use_pcs; simpl;
  rewrite ?app_nil_r, ?Nat.add_0_r;
  repeat (apply prefix_snoc);
  try assumption; try reflexivity; try discriminate; try congruence;
  try solve [ match goal with H : ?l = _ |- context [?l] => rewrite H end;
              simpl; auto ];
  try solve [ intros c E; injection E as <-; left; split; reflexivity ];
  try solve [ rewrite length_app; simpl; lia ];
  try solve [ simpl; lia ];
  try solve [ match goal with
              | Hx : mpc ?p = MDone -> exited ?p = Some _,
                Ex : exited ?p = None |- mpc ?p = MDone -> _ =>
                  intros Hm; apply Hx in Hm; congruence
              end ].

Lemma Inv2_boot w : bootstrapped w = true -> Inv2 w (boot w).
Proof.
  intros H. rewrite (boot_success w H).
  constructor; simpl; try reflexivity; try discriminate; auto.
  exists []. reflexivity.
Qed.

Lemma Inv2_step w a p : Inv p -> Inv2 w p -> Inv2 w (step a p).
Proof.
  intros I I2.
  unfold step. destruct (exited p) eqn:Ex; [exact I2|].
  destruct I2 as [Hpre Had Hli Hcl Hex Hfa Hch Hla].
  pose proof (inv_deferred _ I) as Hdef.
  pose proof (inv_exit0 _ I) as Hx0.
  pose proof (inv_phases _ I) as Hph.
  pose proof (inv_notified _ I) as Hnt.
  pose proof (inv_ignored _ I) as Hig.
  destruct a.
  - unfold main_step. destruct (mpc p) eqn:Em; simpl in *.
    + inv2_case.
    + inv2_case.
    + inv2_case.
    + destruct (srv p) eqn:Es; inv2_case.
    + destruct (srv p) eqn:Es; inv2_case.
    + destruct (is_server_error err) eqn:Ee; inv2_case.
    + rewrite Hdef. inv2_case.
      intros _. exists (trace p). rewrite <- app_assoc. split; [reflexivity|].
      rewrite Hph. simpl. auto 10.
    + inv2_case.
  - unfold go_step. destruct (gpc p) as [[]|] eqn:Eg; simpl in *.
    + destruct (sigquit p) as [|s q] eqn:Eq; simpl in *; inv2_case.
    + inv2_case.
    + unfold health_SetReadinessStatus. inv2_case.
    + inv2_case.
    + inv2_case.
    + inv2_case.
    + destruct err; inv2_case.
    + inv2_case.
    + inv2_case.
  - unfold deliver. rewrite Hnt, Hig.
    destruct s; simpl;
      try (destruct (sigquit p) as [|s0 q] eqn:Eq; simpl in * );
      inv2_case;
      try solve [ intros c E; injection E as <-; right; simpl; lia ].
  - destruct (mpc p) eqn:Em; try (inv2_case; fail).
    destruct (srv p) eqn:Es; inv2_case.
  - destruct (mpc p) eqn:Em; inv2_case.
  - destruct (gpc p) as [[]|] eqn:Eg; inv2_case.
Qed.

Lemma Inv2_run w sched p : Inv p -> Inv2 w p -> Inv2 w (run sched p).
Proof.
  revert p. induction sched as [|a sched IH]; intros p I I2; [exact I2|].
  simpl. apply IH; [now apply Inv_step | now apply Inv2_step].
Qed.

Lemma Inv2_main w sched : bootstrapped w = true -> Inv2 w (main w sched).
Proof.
  intros H. apply Inv2_run; [now apply Inv_boot | now apply Inv2_boot].
Qed.


(** ** Configuration *)

(** X3.  After a successful bootstrap, in every run, the values of the
    configuration have reached their consumers unchanged: the logger its
    format and level, [postgres.New] the URL and the three pool limits
    each under its own name, the CORS package the options of [corsOptions],
    the file server the documentation path, and the server the address;
    [ListenAndServe] is called at most once, on that address. *)
Theorem configuration_passed_through (w : world) (sched : list action) :
  bootstrapped w = true ->
  let cfg := fst (flags_Parse w) in
  let p := main w sched in
  In (ELogNew (Format (Log cfg)) (Level (Log cfg))) (trace p) /\
  In (EPostgresNew (URL (Postgres cfg))
        {| MaxConnLifetime := MaxConnLifetimeSec (Postgres cfg);
           pc_MaxOpenConns := MaxOpenConns (Postgres cfg);
           pc_MaxIdleConns := MaxIdleConns (Postgres cfg) |}) (trace p) /\
  In (EMigrate (article_Migrations w)) (trace p) /\
  In (ECorsNew (corsOptions cfg)) (trace p) /\
  In (EFileServer "/docs" (DocsPath cfg)) (trace p) /\
  srv_Addr p = Addr (HTTP cfg) /\
  listen_addrs (trace p) =
    (if main_listened (mpc p) then [Addr (HTTP cfg)] else []).
Proof.
  intros Hb cfg p. subst cfg p.
  pose proof (Inv2_main w sched Hb) as I2.
  destruct (inv2_prefix _ _ I2) as [t Ht].
  rewrite (inv2_listen _ _ I2), (inv2_addr _ _ I2), Ht.
  unfold boot_trace.
  repeat split; try (apply in_or_app; left; simpl; auto 20).
Qed.

Lemma configuration_passed_through_witness :
  In (EPostgresNew "postgres://"
        {| MaxConnLifetime := 60; pc_MaxOpenConns := 1; pc_MaxIdleConns := 1 |})
     (trace (main world_ok [StepMain; StepMain; StepMain])) /\
  listen_addrs (trace (main world_ok [StepMain; StepMain; StepMain])) =
    ["localhost:5000"].
Proof.
  pose proof (configuration_passed_through world_ok
                [StepMain; StepMain; StepMain] eq_refl) as H.
  cbv zeta in H. destruct H as (_ & H1 & _ & _ & _ & _ & H2).
  split; [exact H1 | exact H2].
Defined.

(** ** The deferred [db.Close] *)



(** ** One shutdown, however many signals *)

Lemma triggered_step a p : triggered p = true -> triggered (step a p) = true.
Proof.
  unfold step. destruct (exited p); [trivial|].
  unfold triggered, coordinator_of. destruct a.
  - unfold main_step.
    destruct (mpc p); simpl; try destruct (srv p);
      try destruct (is_server_error err); rewrite ?emits_eq; simpl; trivial.
  - unfold go_step.
    destruct (gpc p) as [[]|] eqn:Eg; try destruct (sigquit p);
      try destruct err; simpl; rewrite ?Eg; trivial.
  - unfold deliver. destruct (sig_mem s (notified p)).
    + destruct (List.length (sigquit p) <? 1)%nat; trivial.
    + destruct (sig_mem s (ignored p)); trivial.
  - destruct (mpc p); trivial. destruct (srv p); trivial.
  - destruct (mpc p); trivial.
  - destruct (gpc p) as [[]|] eqn:Eg; simpl; rewrite ?Eg; trivial.
Qed.

Lemma triggered_run sched p :
  triggered p = true -> triggered (run sched p) = true.
Proof.
  revert p. induction sched as [|a sched IH]; intros p H; [exact H|].
  simpl. apply IH. now apply triggered_step.
Qed.

(** Once the coordinator is triggered, what waits in the channel has no
    influence on any step. *)
Lemma step_forget_chan a p q :
  triggered p = true -> forget_chan p = forget_chan q ->
  forget_chan (step a p) = forget_chan (step a q).
Proof.
  destruct p as [tr rd ig nt sq sv ad mp gp df ex].
  destruct q as [tr' rd' ig' nt' sq' sv' ad' mp' gp' df' ex'].
  unfold forget_chan, set_sigquit, triggered, coordinator_of. simpl.
  intros Ht E. injection E as <- <- <- <- <- <- <- <- <- <-.
  unfold step. simpl. destruct ex; [reflexivity|].
  destruct a.
  - unfold main_step. simpl.
    destruct mp; try destruct sv; try destruct (is_server_error err);
      rewrite ?emits_eq; reflexivity.
  - unfold go_step. simpl.
    destruct gp as [[]|]; try discriminate; try destruct err; reflexivity.
  - unfold deliver. simpl. destruct (sig_mem s nt).
    + destruct (List.length sq <? 1)%nat, (List.length sq' <? 1)%nat;
        reflexivity.
    + destruct (sig_mem s ig); reflexivity.
  - destruct mp; try destruct sv; reflexivity.
  - destruct mp; reflexivity.
  - destruct gp as [[]|]; reflexivity.
Qed.

Lemma triggered_forget_chan p q :
  forget_chan p = forget_chan q -> triggered q = triggered p.
Proof.
  destruct p, q. unfold forget_chan, set_sigquit, triggered, coordinator_of.
  simpl. intros E. now injection E as <- <- <- <- <- <- <- <- <- <-.
Qed.

Lemma run_forget_chan sched p q :
  triggered p = true -> forget_chan p = forget_chan q ->
  forget_chan (run sched p) = forget_chan (run sched q).
Proof.
  revert p q. induction sched as [|a sched IH]; intros p q Ht E; [exact E|].
  simpl. apply IH; [now apply triggered_step | now apply step_forget_chan].
Qed.

(** X5.  The goroutine receives from the signal channel once.  In every
    run [Shutdown] is called at most once and at most one signal waits in
    the channel.  Once the coordinator has been triggered it stays so, and
    a further SIGINT or SIGTERM is without effect for the rest of the run:
    whatever schedule follows, the run with the signal and the run without
    it agree on everything except what waits in the channel. *)
Theorem shutdown_once_further_signals_inert
  (w : world) (sched sched2 : list action) (s : Signal) :
  let p := main w sched in
  ((shutdown_calls (trace p) <= 1)%nat /\ (List.length (sigquit p) <= 1)%nat) /\
  (triggered p = true -> triggered (main w (sched ++ sched2)) = true) /\
  (triggered p = true -> s = SIGINT \/ s = SIGTERM ->
     forget_chan (run sched2 (step (Deliver s) p)) =
     forget_chan (run sched2 p)).
Proof.
  intros p. subst p. split; [|split].
  - destruct (bootstrapped w) eqn:Hb.
    + rewrite (inv_drains _ (Inv_main w sched Hb)).
      split; [destruct (go_drains _); lia|].
      apply (inv2_chan _ _ (Inv2_main w sched Hb)).
    + rewrite (main_not_bootstrapped w sched Hb).
      destruct (boot_quiet w) as (_ & _ & -> & _ & _ & -> & _).
      simpl. lia.
  - intros H. rewrite main_app. now apply triggered_run.
  - intros Ht Hs.
    assert (E : forget_chan (main w sched) =
                forget_chan (step (Deliver s) (main w sched))).
    { unfold step. destruct (exited (main w sched)) eqn:Ex; [reflexivity|].
      destruct (reachable_main w sched) as [[c E]|I]; [congruence|].
      unfold deliver. rewrite (inv_notified _ I).
      assert (Hm : sig_mem s [SIGINT; SIGTERM] = true)
        by (destruct Hs as [-> | ->]; reflexivity).
      rewrite Hm.
      destruct (List.length (sigquit (main w sched)) <? 1)%nat; reflexivity. }
    symmetry. now apply run_forget_chan.
Qed.

Lemma shutdown_once_further_signals_inert_witness :
  forget_chan
    (run [StepGo; StepGo; StepGo; StepMain; StepMain; StepMain]
       (step (Deliver SIGINT)
          (main world_ok [StepMain; Deliver SIGINT; StepGo; StepGo]))) =
  forget_chan
    (run [StepGo; StepGo; StepGo; StepMain; StepMain; StepMain]
       (main world_ok [StepMain; Deliver SIGINT; StepGo; StepGo])).
Proof.
  pose proof (shutdown_once_further_signals_inert world_ok
                [StepMain; Deliver SIGINT; StepGo; StepGo]
                [StepGo; StepGo; StepGo; StepMain; StepMain; StepMain]
                SIGINT) as H.
  cbv zeta in H. destruct H as (_ & _ & H).
  apply H; [reflexivity | now left].
Defined.

(** ** Readiness without a termination signal *)

(** X6.  In a run in which neither SIGINT nor SIGTERM is delivered,
    whatever else happens (requests, other signals, the listener failing,
    [main] returning), the readiness status is OK and is never written,
    [Shutdown] is never called and the coordinator is never triggered. *)
Theorem readiness_ok_without_termination_signal
  (w : world) (sched : list action) :
  (forall s, In (Deliver s) sched -> s <> SIGINT /\ s <> SIGTERM) ->
  let p := main w sched in
  health_ReadinessStatus p = StatusOK /\
  readiness_writes (trace p) = [] /\
  shutdown_calls (trace p) = 0%nat /\
  triggered p = false.
Proof.
  intros Hs p. subst p.
  assert (Ht : triggered (main w sched) = false).
  { destruct (triggered (main w sched)) eqn:Ht; [|reflexivity]. exfalso.
    destruct (triggered_by_termination_signal w sched (or_intror Ht))
      as (s & Hterm & Hin).
    destruct (Hs s Hin) as [H1 H2]. destruct s; try discriminate; congruence. }
  unfold health_ReadinessStatus.
  destruct (bootstrapped w) eqn:Hb.
  - pose proof (Inv_main w sched Hb) as I.
    rewrite (inv_readiness _ I), (inv_writes _ I), (inv_drains _ I).
    split; [|split; [|split; [|exact Ht]]];
      unfold triggered, coordinator_of in Ht;
      destruct (gpc (main w sched)) as [[]|]; try discriminate; reflexivity.
  - split; [|split; [|split; [|exact Ht]]];
      rewrite (main_not_bootstrapped w sched Hb);
      destruct (boot_quiet w) as (Hr & Hw & Hd & _); assumption.
Qed.

Lemma readiness_ok_without_termination_signal_witness :
  health_ReadinessStatus
    (main world_ok [StepMain; StepMain; StepMain; Deliver SIGHUP;
                    ListenReturn (Some (ErrOther "accept")); StepGo;
                    StepMain; StepMain]) = StatusOK.
Proof.
  apply (readiness_ok_without_termination_signal world_ok
           [StepMain; StepMain; StepMain; Deliver SIGHUP;
            ListenReturn (Some (ErrOther "accept")); StepGo;
            StepMain; StepMain]).
  intros s Hin. simpl in Hin.
  repeat (destruct Hin as [Hin|Hin]; [try discriminate; injection Hin as <-;
                                      split; discriminate|]).
  destruct Hin.
Defined.

(** ** From a termination signal to the exit *)

(** Runs the innermost step of a schedule on a state given by its fields,
    and brings the result back to that form. *)
Ltac run_step :=
  match goal with
  | |- context [step ?a (mkProc ?t ?r ?i ?n ?q ?sv ?ad ?m ?g ?d ?e)] =>
      let y := eval cbn in (step a (mkProc t r i n q sv ad m g d e)) in
      let z := eval cbv beta iota delta
                 [set_sigquit set_gpc set_mpc set_srv set_readiness
                  set_exited set_deferred set_signals set_srv_Addr emit
                  health_SetReadinessStatus
                  trace readiness ignored notified sigquit srv srv_Addr
                  mpc gpc deferred exited] in y in
      change (step a (mkProc t r i n q sv ad m g d e)) with z
  end.

(** X7.  Wherever the main goroutine stands, once the coordinator is armed
    a SIGINT or SIGTERM followed by five statements of the shutdown
    goroutine and five of the main goroutine ends the process with status
    0: the readiness status is UNAVAILABLE, [Shutdown] has been called
    once, the database has been closed once, and no request has been
    served in between.  The main goroutine does not wait for [Shutdown] to
    return: at the exit the coordinator is still draining. *)
Theorem termination_signal_leads_to_exit_zero
  (w : world) (sched : list action) (s : Signal) :
  let p := main w sched in
  coordinator_of p = Armed -> exited p = None -> s = SIGINT \/ s = SIGTERM ->
  let q := run [Deliver s; StepGo; StepGo; StepGo; StepGo; StepGo;
                StepMain; StepMain; StepMain; StepMain; StepMain] p in
  exited q = Some 0%Z /\
  health_ReadinessStatus q = StatusServiceUnavailable /\
  shutdown_calls (trace q) = 1%nat /\
  db_closes (trace q) = 1%nat /\
  served (trace q) = served (trace p) /\
  coordinator_of q = Draining.
Proof.
  intros p Ha Ex Hs. subst p.
  destruct (bootstrapped w) eqn:Hb.
  2:{ exfalso. rewrite (main_not_bootstrapped w sched Hb) in Ha.
      destruct (failed_boot_facts w Hb) as (_ & _ & G & _).
      unfold coordinator_of in Ha. rewrite G in Ha. discriminate. }
  pose proof (Inv_main w sched Hb) as I.
  pose proof (Inv2_main w sched Hb) as I2.
  pose proof (inv_notified _ I) as Hnt.
  pose proof (inv_deferred _ I) as Hdf.
  pose proof (inv_drains _ I) as Hdr.
  pose proof (inv_started _ I) as Hst.
  pose proof (inv_exit0 _ I) as Hx0.
  pose proof (inv2_close _ _ I2) as Hcl.
  unfold coordinator_of, health_ReadinessStatus in *.
  remember (main w sched) as p eqn:Ep. clear Ep I I2 Hb.
  cbv zeta. unfold run. cbn [fold_left].
  destruct p as [tr rd ig nt sq sv ad mp gp df ex].
  cbn [trace notified deferred mpc gpc exited] in *. subst.
  destruct gp as [[]|]; try discriminate. cbn [go_drains] in Hdr.
  match goal with
  | |- exited ?x = _ /\ _ => remember x as q eqn:Hq
  end.
  revert Hq.
  destruct mp as [| | | | |[[]|]| |];
    try (now elim Hst); try (specialize (Hx0 eq_refl); discriminate);
    cbn [main_done] in Hcl;
    destruct sq as [|s0 sq]; destruct Hs as [-> | ->];
    repeat run_step; intros ->; cbn [exited readiness trace gpc];
    snoc; snoc2; rewrite ?Hdr, ?Hcl, ?app_nil_r; repeat split; reflexivity.
Qed.

Lemma termination_signal_leads_to_exit_zero_witness :
  exited (run [Deliver SIGTERM; StepGo; StepGo; StepGo; StepGo; StepGo;
               StepMain; StepMain; StepMain; StepMain; StepMain]
            (main world_ok [StepMain; StepMain; StepMain;
                            Request get_articles])) = Some 0%Z.
Proof.
  pose proof (termination_signal_leads_to_exit_zero world_ok
                [StepMain; StepMain; StepMain; Request get_articles] SIGTERM)
    as H.
  cbv zeta in H. destruct H as (H & _); [reflexivity | reflexivity | now right |].
  exact H.
Defined.

(** ** Exit status *)

(** When the configuration is resolved and the bootstrap fails, the trace
    ends with the fatal log of the first error and the exit with status
    1. *)
Lemma boot_fatal w :
  config_resolved w = true -> bootstrapped w = false ->
  exists e t,
    first_error [postgres_New w; db_Connect w;
                 db_Migrate w (article_Migrations w)] = Some e /\
    trace (boot w) = t ++ [ELog FatalLevel "" (Some e); EExit 1] /\
    fatal_logs t = [] /\ exited (boot w) = Some 1%Z.
Proof.
  unfold bootstrapped, config_resolved, connection_established,
    migrations_applied, boot, main_bootstrap, parseFlags, initDatabase.
  destruct (flags_Parse w) as [cfg [fe|]] eqn:Ef; simpl; [discriminate|].
  destruct (Version cfg) eqn:Ev; simpl; [discriminate|]. intros _.
  unfold bind, call, os_Exit, when, ret, logger_Info, logger_Fatal, modify.
  simpl. rewrite ?Ev. simpl.
  destruct (postgres_New w) as [e|] eqn:En; simpl.
  - intros _. exists e. eexists [_; _; _; _].
    split; [reflexivity|]. split; [reflexivity|]. split; reflexivity.
  - destruct (db_Connect w) as [e|] eqn:Ec; simpl.
    + intros _. exists e. eexists [_; _; _; _; _].
      split; [reflexivity|]. split; [reflexivity|]. split; reflexivity.
    + destruct (db_Migrate w (article_Migrations w)) as [e|] eqn:Em; simpl;
        [|discriminate].
      intros _. exists e. eexists [_; _; _; _; _; _].
      split; [reflexivity|]. split; [reflexivity|]. split; reflexivity.
Qed.

(** X8.  After a successful bootstrap no run ends with status 1 and none
    logs at fatal level, whatever the listener or the drain return: the
    process has status 0 exactly when [main] has returned.  When the
    configuration is resolved and the bootstrap fails, every run ends with
    status 1, its trace ending with one fatal log, of the first error of
    [postgres.New], [Connect] and [Migrate], and the exit. *)
Theorem exit_status_one_only_from_bootstrap (w : world) (sched : list action) :
  let p := main w sched in
  (bootstrapped w = true ->
     exited p <> Some 1%Z /\ fatal_logs (trace p) = [] /\
     (exited p = Some 0%Z <-> mpc p = MDone)) /\
  (config_resolved w = true -> bootstrapped w = false ->
     exists e t,
       first_error [postgres_New w; db_Connect w;
                    db_Migrate w (article_Migrations w)] = Some e /\
       trace p = t ++ [ELog FatalLevel "" (Some e); EExit 1] /\
       fatal_logs t = [] /\ exited p = Some 1%Z).
Proof.
  intros p. subst p. split.
  - intros Hb. pose proof (Inv_main w sched Hb) as I.
    pose proof (Inv2_main w sched Hb) as I2.
    split; [|split; [apply (inv2_fatal _ _ I2)|split]].
    + intros E. destruct (inv2_exit _ _ I2 _ E) as [[H _]|H];
        [discriminate | lia].
    + intros E. destruct (inv2_exit _ _ I2 _ E) as [[_ H]|H]; [exact H | lia].
    + apply (inv_exit0 _ I).
  - intros Hc Hb. rewrite (main_not_bootstrapped w sched Hb).
    now apply boot_fatal.
Qed.

Lemma exit_status_one_only_from_bootstrap_witness :
  exists e t,
    first_error [postgres_New world_connect_fails;
                 db_Connect world_connect_fails;
                 db_Migrate world_connect_fails
                   (article_Migrations world_connect_fails)] = Some e /\
    trace (main world_connect_fails [StepMain; Deliver SIGTERM]) =
      t ++ [ELog FatalLevel "" (Some e); EExit 1] /\
    fatal_logs t = [] /\
    exited (main world_connect_fails [StepMain; Deliver SIGTERM]) = Some 1%Z.
Proof.
  apply (exit_status_one_only_from_bootstrap world_connect_fails
           [StepMain; Deliver SIGTERM]); reflexivity.
Defined.
